(** * js-bitcoin: the block-header codec and its test helpers

    A shallow embedding of [src/bitcoin-block.js] (the [encode] / [decode]
    pair registered as the "bitcoin-block" codec) and of the helpers of the
    test file that the specification refers to ([verifyMerkle]'s node count
    and [findWitnessCommitment]).

    JavaScript values live in an explicit store: objects, arrays and byte
    arrays are store cells addressed by reference, so that copying
    ([Object.assign], [Buffer.from]) and mutation ([deserialized.parent = ..])
    are visible in the model.

    The packages the codec calls (bitcoin-block, multiformats) and the
    modules of the repository that are not among the sources (the constants,
    the transaction codec with its merkle builder) are modelled from the
    specification; each such definition says so. *)

From Stdlib Require Import ZArith Lia List Ascii String.
From Stdlib.Strings Require Import Byte.
From stdpp Require Import gmap strings list fin_maps pretty.
From Equations Require Import Equations.

Import ListNotations.

Local Open Scope string_scope.
Local Open Scope list_scope.
Local Open Scope Z_scope.

(** * The model *)

(** ** Bytes *)

#[global] Instance byte_eq_decision : EqDecision byte := byte_eq_dec.

Definition Z_of_byte (b : byte) : Z := Z.of_N (Byte.to_N b).

Definition byte_of_Z (z : Z) : byte :=
  match Byte.of_N (Z.to_N (z mod 256)) with
  | Some b => b
  | None => x00
  end.

(** Little-endian fixed-width integers: [Buffer.writeUIntLE] and
    [Buffer.readUIntLE] for [n] bytes. *)
Fixpoint le_bytes (n : nat) (z : Z) : list byte :=
  match n with
  | O => []
  | S n' => byte_of_Z z :: le_bytes n' (z / 256)
  end.

Fixpoint le_value (bs : list byte) : Z :=
  match bs with
  | [] => 0
  | b :: bs' => Z_of_byte b + 256 * le_value bs'
  end.

(** Signed reading of a [w]-byte little-endian field ([readInt32LE] at
    [w = 4]): values from [2^(8w-1)] upwards wrap to the negatives. *)
Definition to_signed (w : nat) (u : Z) : Z :=
  if u <? 256 ^ Z.of_nat w / 2 then u else u - 256 ^ Z.of_nat w.

(** ** Hexadecimal strings

    [toHex] is [buf.toString('hex')] (lower-case digits) and [fromHex] is
    [Buffer.from(s, 'hex')]: pairs of digits of either case are decoded until
    the first pair that is not hexadecimal; a trailing single character is
    dropped. *)

Definition hexdigit (n : N) : ascii :=
  match n with
  | 0 => "0" | 1 => "1" | 2 => "2" | 3 => "3" | 4 => "4" | 5 => "5"
  | 6 => "6" | 7 => "7" | 8 => "8" | 9 => "9" | 10 => "a" | 11 => "b"
  | 12 => "c" | 13 => "d" | 14 => "e" | _ => "f"
  end%N%char.

Definition hexval (c : ascii) : option N :=
  let n := N_of_ascii c in
  (if (48 <=? n) && (n <=? 57) then Some (n - 48)
   else if (97 <=? n) && (n <=? 102) then Some (n - 87)
   else if (65 <=? n) && (n <=? 70) then Some (n - 55)
   else None)%N.

Definition byte_of_nibbles (hi lo : N) : byte :=
  byte_of_Z (Z.of_N (16 * hi + lo)).

Definition hi_nibble (b : byte) : N := Byte.to_N b / 16.

Definition lo_nibble (b : byte) : N := Byte.to_N b mod 16.

Fixpoint toHex (bs : list byte) : string :=
  match bs with
  | [] => ""
  | b :: bs' =>
      String (hexdigit (hi_nibble b)) (String (hexdigit (lo_nibble b)) (toHex bs'))
  end.

Fixpoint fromHex (s : string) : list byte :=
  match s with
  | String c1 (String c2 s') =>
      match hexval c1, hexval c2 with
      | Some hi, Some lo => byte_of_nibbles hi lo :: fromHex s'
      | _, _ => []
      end
  | _ => []
  end.

(** A character that [toString('hex')] can produce. *)
Definition is_lower_hex_char (c : ascii) : bool :=
  match hexval c with
  | Some n => Ascii.eqb (hexdigit n) c
  | None => false
  end.

(** Strings that are the lower-case hex rendering of some bytes. *)
Fixpoint is_lower_hex (s : string) : bool :=
  match s with
  | "" => true
  | String c1 (String c2 s') =>
      is_lower_hex_char c1 && is_lower_hex_char c2 && is_lower_hex s'
  | _ => false
  end.

(** [s.slice(n)] for a non-negative [n]. *)
Fixpoint slice_from (n : nat) (s : string) : string :=
  match n, s with
  | O, _ => s
  | S n', String _ s' => slice_from n' s'
  | S _, "" => ""
  end.

(** ** JavaScript values and the store *)

Abbreviation loc := nat (only parsing).

(** Numbers are restricted to the integers, which is what the header fields
    hold. *)
Inductive jsval :=
| JUndefined
| JNull
| JBool (b : bool)
| JNum (n : Z)
| JStr (s : string)
| JFun
| JRef (l : loc).

Arguments JRef l%_nat_scope.

(** Modelled from the spec: the identifier class belongs to the identifier
    encoder, which is not among the sources; section 3 gives it as the
    immutable tuple {version, codecTag, hashAlgorithmTag, digest}. *)
Record ContentIdentifier := {
  cid_version : Z;
  codecTag : Z;
  hashAlgorithmTag : string;
  digest : list byte
}.

(** Store cells. [HBytes ctor data] is an instance of [Uint8Array] or of a
    subclass of it, [ctor] being its [constructor.name] ("Uint8Array" for a
    direct instance, "Buffer" for a Node buffer). *)
Inductive hobj :=
| HObj (fields : gmap string jsval)
| HArr (elems : list jsval)
| HBytes (ctor : string) (data : list byte)
| HCid (c : ContentIdentifier).

Abbreviation heap := (list hobj) (only parsing).

Inductive exn :=
| TypeError (message : string)
| TypeMismatch
| MalformedEncoding.

(** State and exception monad over the store: a throw keeps the store as it
    was when the exception was raised. *)
Definition M (A : Type) : Type := heap -> (exn + A) * heap.

Definition ret {A} (a : A) : M A := fun h => (inr a, h).

Definition throw {A} (e : exn) : M A := fun h => (inl e, h).

Definition bind {A B} (m : M A) (k : A -> M B) : M B :=
  fun h => match m h with
           | (inl e, h') => (inl e, h')
           | (inr a, h') => k a h'
           end.

Definition lift {A} (r : exn + A) : M A :=
  match r with inl e => throw e | inr a => ret a end.

Notation "'let*' x ':=' m 'in' k" := (bind m (fun x => k))
  (at level 10, x name, m at level 100, k at level 200).

Notation "m ';;' k" := (bind m (fun _ => k))
  (at level 100, k at level 200, right associativity).

Definition alloc (o : hobj) : M jsval :=
  fun h => (inr (JRef (length h)), h ++ [o]).

Definition deref (h : heap) (v : jsval) : option hobj :=
  match v with
  | JRef l => h !! l
  | _ => None
  end.

Definition typeof (v : jsval) : string :=
  match v with
  | JUndefined => "undefined"
  | JNull => "object"
  | JBool _ => "boolean"
  | JNum _ => "number"
  | JStr _ => "string"
  | JFun => "function"
  | JRef _ => "object"
  end.

(** [v instanceof Uint8Array && v.constructor.name === name] *)
Definition instanceof_Uint8Array (h : heap) (v : jsval) : bool :=
  match deref h v with
  | Some (HBytes _ _) => true
  | _ => false
  end.

Definition constructor_name_is (h : heap) (v : jsval) (name : string) : bool :=
  match deref h v with
  | Some (HBytes ctor _) => String.eqb ctor name
  | Some (HObj _) => String.eqb "Object" name
  | Some (HArr _) => String.eqb "Array" name
  | Some (HCid _) => String.eqb "CID" name
  | None => false
  end.

(** [obj.key]: a missing property reads as [undefined]; reading from
    [undefined] or [null] throws. *)
Definition get_prop (obj : jsval) (key : string) : M jsval :=
  fun h =>
    match obj with
    | JUndefined | JNull => (inl (TypeError "Cannot read properties"), h)
    | _ =>
        match deref h obj with
        | Some (HObj f) => (inr (default JUndefined (f !! key)), h)
        | _ => (inr JUndefined, h)
        end
    end.

(** [obj.key = x] on a plain object updates its cell in place.  The codec
    only assigns to the plain object it has just obtained; any other target
    is reported as an error here. *)
Definition set_prop (obj : jsval) (key : string) (x : jsval) : M unit :=
  fun h =>
    match obj with
    | JRef l =>
        match h !! l with
        | Some (HObj f) => (inr tt, <[l := HObj (<[key := x]> f)]> h)
        | _ => (inl (TypeError "Cannot set properties"), h)
        end
    | _ => (inl (TypeError "Cannot set properties"), h)
    end.

(** [Buffer.from(buf)] for a byte array: a fresh Node buffer with a copy of
    the bytes. *)
Definition Buffer_from (buf : jsval) : M jsval :=
  fun h =>
    match deref h buf with
    | Some (HBytes _ data) => alloc (HBytes "Buffer" data) h
    | _ => (inl (TypeError "The first argument must be of type string or an instance of Buffer"), h)
    end.

Definition bytes_of (buf : jsval) : M (list byte) :=
  fun h =>
    match deref h buf with
    | Some (HBytes _ data) => (inr data, h)
    | _ => (inl TypeMismatch, h)
    end.

(** ** The native header parser (package bitcoin-block) *)

(** Modelled from the spec: the native block parser is an external
    collaborator, not among the sources.  Section 3 gives the header as
    version (int32), previousBlockHash and merkleRoot (32 bytes each), time,
    bits and nonce (uint32 each); section 4.1 gives its encoding as the six
    fields in little-endian fixed width, in declared order (80 bytes).  The
    hashes are kept here in wire order. *)
Record BitcoinBlock := {
  blk_version : Z;
  blk_previousblockhash : list byte;
  blk_merkleroot : list byte;
  blk_time : Z;
  blk_bits : Z;
  blk_nonce : Z
}.

Definition is_int32 (z : Z) : bool := (- 2 ^ 31 <=? z) && (z <? 2 ^ 31).

Definition is_uint32 (z : Z) : bool := (0 <=? z) && (z <? 2 ^ 32).

(** The display form of a 32-byte hash: 64 lower-case hex digits. *)
Definition is_hash_hex (s : string) : bool :=
  is_lower_hex s && (String.length s =? 64)%nat.

(** Modelled from the spec: [fromHashHex] of package bitcoin-block, the
    "hex-reversed" hash of section 4.1: the bytes of a hex string in reverse
    order. *)
Definition fromHashHex (v : jsval) : exn + list byte :=
  match v with
  | JStr s => inr (rev (fromHex s))
  | _ => inl TypeMismatch
  end.

(** Modelled from the spec: [block.encode()], section 4.1. *)
Definition BitcoinBlock_encode (b : BitcoinBlock) : list byte :=
  le_bytes 4 (blk_version b) ++ blk_previousblockhash b ++ blk_merkleroot b
  ++ le_bytes 4 (blk_time b) ++ le_bytes 4 (blk_bits b) ++ le_bytes 4 (blk_nonce b).

(** Modelled from the spec: [BitcoinBlock.decodeHeaderOnly(buf)], section 4.1:
    only the first 80 bytes are read; a shorter buffer is a truncated one
    (section 7, MalformedEncoding). *)
Definition decodeHeaderOnly (buf : list byte) : exn + BitcoinBlock :=
  if (length buf <? 80)%nat then inl MalformedEncoding
  else inr {|
    blk_version := to_signed 4 (le_value (firstn 4 buf));
    blk_previousblockhash := firstn 32 (skipn 4 buf);
    blk_merkleroot := firstn 32 (skipn 36 buf);
    blk_time := le_value (firstn 4 (skipn 68 buf));
    blk_bits := le_value (firstn 4 (skipn 72 buf));
    blk_nonce := le_value (firstn 4 (skipn 76 buf))
  |}.

(** Modelled from the spec: [block.toPorcelain()]: the six primitive fields,
    the two hashes as hex strings in display (reversed) order, which is what
    [decode] hands to [fromHashHex]. *)
Definition porcelain_fields (b : BitcoinBlock) : gmap string jsval :=
  <["version" := JNum (blk_version b)]>
  (<["previousblockhash" := JStr (toHex (rev (blk_previousblockhash b)))]>
  (<["merkleroot" := JStr (toHex (rev (blk_merkleroot b)))]>
  (<["time" := JNum (blk_time b)]>
  (<["bits" := JNum (blk_bits b)]>
  (<["nonce" := JNum (blk_nonce b)]> ∅))))).

Definition toPorcelain (b : BitcoinBlock) : M jsval :=
  alloc (HObj (porcelain_fields b)).

(** Modelled from the spec: [BitcoinBlock.fromPorcelain(obj)]: the six fields
    must be present with the types and ranges of section 3 (section 7,
    TypeMismatch, otherwise), and the header serializer is undefined over
    records that carry a transaction array (section 4.1): the [tx] property
    must be absent, [undefined] or [null]. *)
Definition primitive_fields (f : gmap string jsval)
  : option (Z * string * string * Z * Z * Z) :=
  match f !! "version", f !! "previousblockhash", f !! "merkleroot",
        f !! "time", f !! "bits", f !! "nonce" with
  | Some (JNum v), Some (JStr p), Some (JStr m),
    Some (JNum t), Some (JNum b), Some (JNum n) => Some (v, p, m, t, b, n)
  | _, _, _, _, _, _ => None
  end.

Definition fields_in_range (r : Z * string * string * Z * Z * Z) : bool :=
  let '(v, p, m, t, b, n) := r in
  is_int32 v && is_hash_hex p && is_hash_hex m
  && is_uint32 t && is_uint32 b && is_uint32 n.

Definition block_of_fields (r : Z * string * string * Z * Z * Z) : BitcoinBlock :=
  let '(v, p, m, t, b, n) := r in
  {| blk_version := v;
     blk_previousblockhash := rev (fromHex p);
     blk_merkleroot := rev (fromHex m);
     blk_time := t; blk_bits := b; blk_nonce := n |}.

Definition header_of_fields (f : gmap string jsval) : exn + BitcoinBlock :=
  match f !! "tx" with
  | None | Some JUndefined | Some JNull =>
      match primitive_fields f with
      | Some r => if fields_in_range r then inr (block_of_fields r) else inl TypeMismatch
      | None => inl TypeMismatch
      end
  | Some _ => inl TypeMismatch
  end.

Definition fromPorcelain (porcelain : jsval) : M BitcoinBlock :=
  fun h =>
    match deref h porcelain with
    | Some (HObj f) => (header_of_fields f, h)
    | _ => (inl TypeMismatch, h)
    end.

(** ** The identifier substrate (package multiformats) and the constants *)

(** Modelled from the spec: [constants.js] is not among the sources.  The
    hash-algorithm name is the one of the fixture notes, the transaction
    codec tag is the one the test file declares, and the block codec tag is
    the one carried by the fixtures' block identifiers. *)
Definition HASH_ALG : string := "dbl-sha2-256".

Definition CODEC_BLOCK : string := "bitcoin-block".

Definition CODEC_BLOCK_CODE : Z := 0xb0.

Definition CODEC_TX_CODE : Z := 0xb1.

Record Multihash := {
  mh_algorithm : string;
  mh_digest : list byte
}.

(** Modelled from the spec: [multiformats.multihash.encode(digest, alg)]
    tags a digest with its hash algorithm; the digest is not hashed again
    (the test file builds the same identifiers by putting the multihash lead
    bytes in front of a hash, lines 206-220). *)
Definition multihash_encode (d : list byte) (alg : string) : Multihash :=
  {| mh_algorithm := alg; mh_digest := d |}.

(** Modelled from the spec: [new multiformats.CID(version, code, multihash)]. *)
Definition new_CID (version code : Z) (mh : Multihash) : M jsval :=
  alloc (HCid {| cid_version := version; codecTag := code;
                 hashAlgorithmTag := mh_algorithm mh; digest := mh_digest mh |}).

(** ** The codec: src/bitcoin-block.js *)

Definition indexed (xs : list jsval) : gmap string jsval :=
  list_to_map (imap (fun i x => (pretty i, x)) xs).

Definition string_chars (s : string) : list jsval :=
  map (fun c => JStr (String c "")) (list_ascii_of_string s).

Section Codec.

(** The own enumerable properties of an identifier object: the identifier
    encoder is a black box (section 6), so its layout is a parameter. *)
Variable cid_props : ContentIdentifier -> gmap string jsval.

(** The own enumerable properties that [Object.assign] copies from a
    source: the properties of a plain object, the indices of an array, of a
    byte array or of a string; [undefined], [null], numbers and booleans
    have none. *)
Definition own_enumerable (h : heap) (v : jsval) : gmap string jsval :=
  match v with
  | JStr s => indexed (string_chars s)
  | JRef l =>
      match h !! l with
      | Some (HObj f) => f
      | Some (HArr xs) => indexed xs
      | Some (HBytes _ data) => indexed (map (fun b => JNum (Z_of_byte b)) data)
      | Some (HCid c) => cid_props c
      | None => ∅
      end
  | _ => ∅
  end.

(** [Object.assign(target, ...sources)] on a plain target: the sources are
    copied in order, later ones overriding earlier ones; the target is
    mutated and returned. *)
Definition Object_assign (target : jsval) (sources : list jsval) : M jsval :=
  fun h =>
    match target with
    | JRef l =>
        match h !! l with
        | Some (HObj f) =>
            let f' := foldl (fun acc src => own_enumerable h src ∪ acc) f sources in
            (inr target, <[l := HObj f']> h)
        | _ => (inl (TypeError "Cannot convert target to a plain object"), h)
        end
    | _ => (inl (TypeError "Cannot convert undefined or null to object"), h)
    end.

(** [encode], lines 6-11.  The serialized bytes are returned by content. *)
Definition encode (obj : jsval) : M (list byte) :=
  if negb (String.eqb (typeof obj) "object") then
    throw (TypeError "Can only encode() an object")
  else
    let* target := alloc (HObj ∅) in
    let* override := alloc (HObj {["tx" := JNull]}) in
    let* porcelain := Object_assign target [obj; override] in
    let* block := fromPorcelain porcelain in
    ret (BitcoinBlock_encode block).

End Codec.

(** [decode], lines 15-32. *)
Definition decode (buf : jsval) : M jsval :=
  fun h =>
    if negb (instanceof_Uint8Array h buf && constructor_name_is h buf "Uint8Array") then
      throw (TypeError "Can only decode() a Buffer or Uint8Array") h
    else
      (let* buf := Buffer_from buf in
       let* raw := bytes_of buf in
       let* block := lift (decodeHeaderOnly raw) in
       let* deserialized := toPorcelain block in
       let* previousblockhash := get_prop deserialized "previousblockhash" in
       let* parentDigest := lift (fromHashHex previousblockhash) in
       let parentHash := multihash_encode parentDigest HASH_ALG in
       let* parent := new_CID 1 CODEC_BLOCK_CODE parentHash in
       set_prop deserialized "parent" parent ;;
       let* merkleroot := get_prop deserialized "merkleroot" in
       let* txDigest := lift (fromHashHex merkleroot) in
       let txHash := multihash_encode txDigest HASH_ALG in
       let* tx := new_CID 1 CODEC_TX_CODE txHash in
       set_prop deserialized "tx" tx ;;
       ret deserialized) h.

(** [init], lines 35-42: the codec as it is registered. *)
Record Codec := {
  codec_encode : jsval -> M (list byte);
  codec_decode : jsval -> M jsval;
  codec_name : string;
  codec_code : Z
}.

Definition init (cid_props : ContentIdentifier -> gmap string jsval) : Codec :=
  {| codec_encode := encode cid_props;
     codec_decode := decode;
     codec_name := CODEC_BLOCK;
     codec_code := CODEC_BLOCK_CODE |}.

(** ** Observing the store and a decoded header *)

(** [preserves h h']: every cell of [h] is still there, unchanged, in [h']. *)
Definition preserves (h h' : heap) : Prop :=
  forall l o, h !! l = Some o -> h' !! l = Some o.

Definition decode_TypeError : exn := TypeError "Can only decode() a Buffer or Uint8Array".

Definition encode_TypeError : exn := TypeError "Can only encode() an object".

(** The two identifiers that [decode] builds, lines 24-29. *)
Definition parent_cid (blk : BitcoinBlock) : ContentIdentifier :=
  {| cid_version := 1; codecTag := CODEC_BLOCK_CODE;
     hashAlgorithmTag := HASH_ALG; digest := blk_previousblockhash blk |}.

Definition tx_cid (blk : BitcoinBlock) : ContentIdentifier :=
  {| cid_version := 1; codecTag := CODEC_TX_CODE;
     hashAlgorithmTag := HASH_ALG; digest := blk_merkleroot blk |}.

(** The properties of the record that [decode] returns when the store had
    [hlen] cells before the call. *)
Definition decoded_fields (b : BitcoinBlock) (hlen : nat) : gmap string jsval :=
  <["tx" := JRef (hlen + 3)]> (<["parent" := JRef (hlen + 2)]> (porcelain_fields b)).

(** A header whose fields fit their widths. *)
Definition block_in_range (b : BitcoinBlock) : Prop :=
  is_int32 (blk_version b) = true /\
  length (blk_previousblockhash b) = 32%nat /\
  length (blk_merkleroot b) = 32%nat /\
  is_uint32 (blk_time b) = true /\
  is_uint32 (blk_bits b) = true /\
  is_uint32 (blk_nonce b) = true.

(** A valid header record: the six primitive fields are present, with the
    types and ranges of the data model. *)
Definition valid_header_record (f : gmap string jsval) : bool :=
  match primitive_fields f with
  | Some r => fields_in_range r
  | None => false
  end.

(** The identifier that a property of a record refers to, if any. *)
Definition link_of (h : heap) (f : gmap string jsval) (key : string)
  : option ContentIdentifier :=
  match f !! key with
  | Some v => match deref h v with
              | Some (HCid c) => Some c
              | _ => None
              end
  | None => None
  end.

(** What a caller can see of the outcome of [decode], independently of where
    the new cells were allocated: the property names of the record, its six
    primitive fields and the two identifiers it links to. *)
Record HeaderView := {
  view_keys : gset string;
  view_fields : option (Z * string * string * Z * Z * Z);
  view_parent : option ContentIdentifier;
  view_tx : option ContentIdentifier
}.

Definition view (out : (exn + jsval) * heap) : exn + option HeaderView :=
  match out with
  | (inl e, _) => inl e
  | (inr v, h) =>
      match deref h v with
      | Some (HObj f) =>
          inr (Some {| view_keys := dom f;
                       view_fields := primitive_fields f;
                       view_parent := link_of h f "parent";
                       view_tx := link_of h f "tx" |})
      | _ => inr None
      end
  end.

(** ** The merkle node count of the test file *)

(** [Math.ceil(last / 2)] on a non-negative integer. *)
Definition ceil_half (n : nat) : nat := ((n + 1) / 2)%nat.

Lemma ceil_half_lt n : (1 < n)%nat -> (ceil_half n < n)%nat.
Proof.
  intros H. unfold ceil_half. apply Nat.Div0.div_lt_upper_bound. lia.
Qed.

(** [verifyMerkle], lines 263-268: the loop
    [while (last > 1) { last = Math.ceil(last / 2); expectedNodes += last }]
    as a function of its two variables. *)
Equations? expectedNodes_loop (expectedNodes last : nat) : nat by wf last lt :=
  expectedNodes_loop expectedNodes last with le_lt_dec last 1 := {
    | left _ => expectedNodes
    | right _ => expectedNodes_loop (expectedNodes + ceil_half last) (ceil_half last)
  }.
Proof. now apply ceil_half_lt. Qed.

(** The value of [expectedNodes] after the loop, for [N] transactions. *)
Definition expectedNodes (N : nat) : nat := expectedNodes_loop N N.

(** [verifyMerkle], lines 270-300: [index] starts at 1 in witness mode ("we
    skip the coinbase for full merkle"), is incremented once per yielded node
    and is compared with [expectedNodes] at the end. *)
Definition verifyMerkle_index (witness : bool) (yielded : nat) : nat :=
  ((if witness then 1 else 0) + yielded)%nat.

(** ** The merkle tree builder *)

Record MerkleNode := {
  node_digest : list byte;
  node_binary_length : nat
}.

Section MerkleTreeBuilder.

(** The hash function provider (section 6). *)
Variable doubleHash : list byte -> list byte.

(** Modelled from the spec: one level of the builder of section 4.3, which
    belongs to [src/bitcoin-tx.js], not among the sources: "if the count is
    odd, duplicate the last node; pair consecutive nodes left-to-right and
    compute doubleHash(left ‖ right)". *)
Fixpoint next_level (level : list (list byte)) : list (list byte) :=
  match level with
  | [] => []
  | [a] => [doubleHash (a ++ a)]
  | a :: b :: rest => doubleHash (a ++ b) :: next_level rest
  end.

Lemma next_level_length level : length (next_level level) = ceil_half (length level).
Proof.
  unfold ceil_half.
  enough (H : forall n l, (length l <= n)%nat ->
              length (next_level l) = ((length l + 1) / 2)%nat)
    by (apply (H (length level)); lia).
  induction n as [|n IH]; intros [|a [|b rest]] Hl; cbn [length] in *;
    try reflexivity; try lia.
  cbn [next_level length]. rewrite IH by lia.
  replace (S (S (length rest)) + 1)%nat with ((length rest + 1) + 1 * 2)%nat by lia.
  rewrite Nat.div_add by lia. lia.
Qed.

(** Modelled from the spec: "while the current level has more than one
    node ... form the next level; repeat until one node remains": the
    levels above the leaves, bottom-up. *)
Equations? upper_levels (level : list (list byte)) : list (list (list byte))
  by wf (length level) lt :=
  upper_levels level with le_lt_dec (length level) 1 := {
    | left _ => []
    | right _ => next_level level :: upper_levels (next_level level)
  }.
Proof. rewrite next_level_length. now apply ceil_half_lt. Qed.

Definition zero_hash : list byte := repeat x00 32.

(** Modelled from the spec: in witness-root mode leaf 0 is replaced by 32
    zero bytes for computing the internal nodes only. *)
Definition hashing_leaves (zeroCoinbase : bool) (leaves : list MerkleNode)
  : list (list byte) :=
  match zeroCoinbase, map node_digest leaves with
  | true, _ :: rest => zero_hash :: rest
  | _, digests => digests
  end.

(** Modelled from the spec: the sequence the builder emits, "every node
    (leaves then each level bottom-up) paired with its originating byte
    length"; an internal node is the 64-byte concatenation it hashes. *)
Definition merkle (zeroCoinbase : bool) (leaves : list MerkleNode) : list MerkleNode :=
  leaves ++
  map (fun d => {| node_digest := d; node_binary_length := 64 |})
      (concat (upper_levels (hashing_leaves zeroCoinbase leaves))).

Definition merkle_root (zeroCoinbase : bool) (leaves : list MerkleNode)
  : option (list byte) :=
  node_digest <$> last (merkle zeroCoinbase leaves).

End MerkleTreeBuilder.

(** ** The transaction codec *)

(** Modelled from the spec: the transaction codec ([src/bitcoin-tx.js]) is
    not among the sources.  Section 3 gives the record: version, inputs
    (previous-output hash and index, unlocking script, sequence number and a
    witness stack, empty when the input carries none), outputs (value and
    locking script) and lock time. *)
Record TxInput := {
  in_hash : list byte;
  in_index : Z;
  in_script : list byte;
  in_sequence : Z;
  in_witness : list (list byte)
}.

Record TxOutput := {
  out_value : Z;
  out_script : list byte
}.

Record TransactionRecord := {
  tx_version : Z;
  tx_inputs : list TxInput;
  tx_outputs : list TxOutput;
  tx_locktime : Z
}.

(** Modelled from the spec: the compact integer encoding of section 4.2:
    "values <0xfd as 1 byte, ≤0xffff as marker 0xfd + 2 bytes, ≤0xffffffff as
    marker 0xfe + 4 bytes, else marker 0xff + 8 bytes, all little-endian". *)
Definition compact_size (n : Z) : list byte :=
  if n <? 0xfd then [byte_of_Z n]
  else if n <=? 0xffff then xfd :: le_bytes 2 n
  else if n <=? 0xffffffff then xfe :: le_bytes 4 n
  else xff :: le_bytes 8 n.

Definition var_bytes (bs : list byte) : list byte :=
  compact_size (Z.of_nat (length bs)) ++ bs.

Definition encode_input (i : TxInput) : list byte :=
  in_hash i ++ le_bytes 4 (in_index i) ++ var_bytes (in_script i)
  ++ le_bytes 4 (in_sequence i).

Definition encode_output (o : TxOutput) : list byte :=
  le_bytes 8 (out_value o) ++ var_bytes (out_script o).

Definition encode_witness_stack (stack : list (list byte)) : list byte :=
  compact_size (Z.of_nat (length stack)) ++ concat (map var_bytes stack).

(** Modelled from the spec: a record is segwit-tagged when at least one input
    carries a non-empty witness stack (section 3). *)
Definition segwit_tagged (t : TransactionRecord) : bool :=
  existsb (fun i => negb (Nat.eqb (length (in_witness i)) 0)) (tx_inputs t).

(** Modelled from the spec: [encode(record, {witness})] of section 4.2.  The
    marker and flag bytes and the witness stacks are emitted only when
    [witness] is set and the record is segwit-tagged. *)
Definition tx_encode (t : TransactionRecord) (witness : bool) : list byte :=
  let segwit := witness && segwit_tagged t in
  le_bytes 4 (tx_version t)
  ++ (if segwit then [x00; x01] else [])
  ++ compact_size (Z.of_nat (length (tx_inputs t)))
  ++ concat (map encode_input (tx_inputs t))
  ++ compact_size (Z.of_nat (length (tx_outputs t)))
  ++ concat (map encode_output (tx_outputs t))
  ++ (if segwit then concat (map (fun i => encode_witness_stack (in_witness i)) (tx_inputs t))
      else [])
  ++ le_bytes 4 (tx_locktime t).

(** [encodeNoWitness(node)] of the test file, line 384. *)
Definition encodeNoWitness (t : TransactionRecord) : list byte := tx_encode t false.

(** Modelled from the spec: an encoding is segwit-tagged when "a reserved
    marker/flag byte pair appears immediately after the version field"
    (section 3 and the glossary): bytes 4 and 5 are 00 01. *)
Definition has_marker_flag (bs : list byte) : bool :=
  match skipn 4 bs with
  | b4 :: b5 :: _ => bool_decide (b4 = x00) && bool_decide (b5 = x01)
  | _ => false
  end.


(** ** The witness commitment in the coinbase *)

(** The parts of the block's JSON description that [findWitnessCommitment]
    reads: [block.tx[0].vout[i].scriptPubKey.hex]. *)
Module Json.

Record ScriptPubKey := { hex : string }.

Record Vout := { scriptPubKey : ScriptPubKey }.

Record Transaction := { vout : list Vout }.

Record Block := { tx : list Transaction }.

End Json.

(** The loop of lines 310-315: the first output whose script matches is
    returned; falling out of the loop returns [undefined] (here [None]). *)
Fixpoint scan_vouts (vouts : list Json.Vout) : option (list byte) :=
  match vouts with
  | [] => None
  | vout :: rest =>
      let spk := Json.hex (Json.scriptPubKey vout) in
      if (String.length spk =? 38 * 2)%nat && String.prefix "6a24aa21a9ed" spk
      then Some (fromHex (slice_from 12 spk))
      else scan_vouts rest
  end.

(** [findWitnessCommitment], lines 308-316.  A block without transactions
    has no [tx[0]], and reading [coinbase.vout] throws. *)
Definition findWitnessCommitment (block : Json.Block) : exn + option (list byte) :=
  match Json.tx block with
  | [] => inl (TypeError "Cannot read properties of undefined (reading 'vout')")
  | coinbase :: _ => inr (scan_vouts (Json.vout coinbase))
  end.

(** The check in the words of the specification, on script bytes: a script of
    exactly 38 bytes whose first 6 bytes are the fixed prefix; its bytes
    6..37 are the commitment. *)
Definition commitment_prefix : list byte := [x6a; x24; xaa; x21; xa9; xed].

Definition is_commitment_script (script : list byte) : bool :=
  (length script =? 38)%nat && bool_decide (firstn 6 script = commitment_prefix).

Definition embedded_commitment (script : list byte) : list byte :=
  firstn 32 (skipn 6 script).

Definition verify_commitment (scripts : list (list byte)) : option (list byte) :=
  embedded_commitment <$> List.find is_commitment_script scripts.

(** A block whose coinbase has the given output scripts, rendered in hex as
    in the JSON description of a block. *)
Definition vout_of_script (script : list byte) : Json.Vout :=
  {| Json.scriptPubKey := {| Json.hex := toHex script |} |}.

Definition block_with_coinbase (scripts : list (list byte)) (others : list Json.Transaction)
  : Json.Block :=
  {| Json.tx := {| Json.vout := map vout_of_script scripts |} :: others |}.

(** ** The header of a block description: [blockDataToHeader] *)

(** [delete obj[key]] on a plain object removes the property from its cell;
    deleting a property that is not there changes nothing.  As for
    [set_prop], the only target here is a plain object just obtained, and
    any other target is reported as an error. *)
Definition delete_prop (obj : jsval) (key : string) : M unit :=
  fun h =>
    match obj with
    | JRef l =>
        match h !! l with
        | Some (HObj f) => (inr tt, <[l := HObj (delete key f)]> h)
        | _ => (inl (TypeError "Cannot delete properties"), h)
        end
    | _ => (inl (TypeError "Cannot delete properties"), h)
    end.

(** [xs.forEach(f)] *)
Fixpoint forEach {A} (xs : list A) (f : A -> M unit) : M unit :=
  match xs with
  | [] => ret tt
  | x :: xs' => f x ;; forEach xs' f
  end.

(** [s.split(sep)] for a one-character separator: the pieces between the
    separators, empty pieces included. *)
Fixpoint split (sep : ascii) (s : string) : list string :=
  match s with
  | "" => [""]
  | String c s' =>
      if Ascii.eqb c sep then "" :: split sep s'
      else match split sep s' with
           | piece :: pieces => String c piece :: pieces
           | [] => [String c ""]
           end
  end.

Section TestHelpers.

Variable cid_props : ContentIdentifier -> gmap string jsval.

(** [blockDataToHeader], lines 209-216 of the sources. *)
Definition blockDataToHeader (data : jsval) : M jsval :=
  let* target := alloc (HObj ∅) in
  let* header := Object_assign cid_props target [data] in
  forEach (split " " "confirmations chainwork height mediantime nextblockhash")
          (fun p => delete_prop header p) ;;
  forEach (split " " "tx nTx size strippedsize weight")
          (fun p => delete_prop header p) ;;
  ret header.

End TestHelpers.

(** The ten properties that [blockDataToHeader] deletes. *)
Definition chain_context_keys : list string :=
  ["confirmations"; "chainwork"; "height"; "mediantime"; "nextblockhash"].

Definition transaction_keys : list string :=
  ["tx"; "nTx"; "size"; "strippedsize"; "weight"].

(** The record left after deleting the properties [keys], one by one. *)
Definition delete_all (keys : list string) (f : gmap string jsval) : gmap string jsval :=
  foldl (fun acc k => delete k acc) f keys.

(** The properties of the plain object that a computation returned. *)
Definition returned_record (out : (exn + jsval) * heap) : option (gmap string jsval) :=
  match out with
  | (inr v, h) => match deref h v with
                  | Some (HObj f) => Some f
                  | _ => None
                  end
  | (inl _, _) => None
  end.

(** The six primitive fields of the record that [decode] returned, if it
    returned one. *)
Definition header_fields_of (out : (exn + jsval) * heap)
  : option (Z * string * string * Z * Z * Z) :=
  match view out with
  | inr (Some hv) => view_fields hv
  | _ => None
  end.

(** Hexadecimal strings of either case, two characters per byte. *)
Fixpoint is_hex (s : string) : bool :=
  match s with
  | "" => true
  | String c1 (String c2 s') =>
      match hexval c1, hexval c2 with
      | Some _, Some _ => is_hex s'
      | _, _ => false
      end
  | _ => false
  end.

(** ** Concrete inputs *)

Definition sample_block : BitcoinBlock :=
  {| blk_version := 2;
     blk_previousblockhash := repeat x11 32;
     blk_merkleroot := repeat xab 32;
     blk_time := 1400000000;
     blk_bits := 0x1900896c;
     blk_nonce := 4294967295 |}.

(** A header record as a caller holds it: the six fields and a transaction
    array. *)
Definition sample_header : gmap string jsval := porcelain_fields sample_block.

Definition sample_record : gmap string jsval := <["tx" := JRef 2]> sample_header.

Definition sample_store : heap :=
  [HObj sample_record; HObj sample_header; HArr [JStr "01000000"; JStr "02000000"]].

Definition no_cid_props (c : ContentIdentifier) : gmap string jsval := ∅.

(** The 80 bytes of a header whose previous-block hash is not zero. *)
Definition header_bytes : list byte := BitcoinBlock_encode sample_block.

Definition header_store : heap := [HBytes "Uint8Array" header_bytes].

Definition block_store : heap := [HBytes "Uint8Array" (header_bytes ++ [x01; x02; x03])].

Definition buffer_store : heap := [HBytes "Buffer" header_bytes].

Definition sample_leaves : list MerkleNode :=
  [ {| node_digest := repeat x01 32; node_binary_length := 204 |};
    {| node_digest := repeat x02 32; node_binary_length := 225 |};
    {| node_digest := repeat x03 32; node_binary_length := 192 |} ].


Definition commitment_script : list byte := commitment_prefix ++ repeat x5a 32.

(** A block description as the node returns it: the header fields, the
    chain context and the transactions. *)
Definition sample_block_data : gmap string jsval :=
  <["confirmations" := JNum 7]>
  (<["height" := JNum 300096]>
  (<["nTx" := JNum 2]>
  (<["tx" := JRef 1]> sample_header))).

Definition empty_record_store : heap := [HObj ∅].

Definition header_fields : Z * string * string * Z * Z * Z :=
  (2, toHex (repeat x11 32), toHex (repeat xab 32), 1400000000, 0x1900896c, 4294967295).

Definition commitment_block : Json.Block :=
  block_with_coinbase [[x76; xa9; x14]; commitment_script] [].

Definition block_data_store : heap :=
  [HObj sample_block_data; HArr [JStr "01000000"; JStr "02000000"]].

(** * Properties *)

(** ** Bytes and little-endian integers *)

Lemma Z_of_byte_range b : 0 <= Z_of_byte b < 256.
Proof.
  unfold Z_of_byte. pose proof (Byte.to_N_bounded b). lia.
Qed.

Lemma byte_of_Z_of_byte b : byte_of_Z (Z_of_byte b) = b.
Proof.
  unfold byte_of_Z. pose proof (Z_of_byte_range b) as Hr.
  rewrite Z.mod_small by lia.
  unfold Z_of_byte. rewrite N2Z.id, Byte.of_to_N. reflexivity.
Qed.

Lemma Z_of_byte_of_Z z : Z_of_byte (byte_of_Z z) = z mod 256.
Proof.
  unfold byte_of_Z, Z_of_byte.
  pose proof (Z.mod_pos_bound z 256 ltac:(lia)) as Hr.
  destruct (Byte.of_N (Z.to_N (z mod 256))) as [b|] eqn:E.
  - apply Byte.to_of_N in E. rewrite E. lia.
  - apply Byte.of_N_None_iff in E. lia.
Qed.

Lemma le_bytes_length n z : length (le_bytes n z) = n.
Proof. revert z. induction n; intros; simpl; [reflexivity | now rewrite IHn]. Qed.

Lemma le_value_range bs : 0 <= le_value bs < 256 ^ Z.of_nat (length bs).
Proof.
  induction bs as [|b bs IH]; [simpl; lia|].
  cbn [le_value length]. pose proof (Z_of_byte_range b).
  rewrite Nat2Z.inj_succ, Z.pow_succ_r by lia. lia.
Qed.

Lemma le_value_bytes n z : le_value (le_bytes n z) = z mod 256 ^ Z.of_nat n.
Proof.
  revert z. induction n as [|n IH]; intros z.
  - simpl. now rewrite Z.mod_1_r.
  - cbn [le_bytes le_value]. rewrite Z_of_byte_of_Z, IH.
    rewrite Nat2Z.inj_succ, Z.pow_succ_r by lia.
    rewrite Z.rem_mul_r by lia. lia.
Qed.

Lemma le_bytes_value bs : le_bytes (length bs) (le_value bs) = bs.
Proof.
  induction bs as [|b bs IH]; [reflexivity|].
  cbn [length le_bytes le_value]. pose proof (Z_of_byte_range b) as Hb.
  f_equal.
  - rewrite <- (byte_of_Z_of_byte b) at 2. unfold byte_of_Z.
    replace ((Z_of_byte b + 256 * le_value bs) mod 256) with (Z_of_byte b mod 256);
      [reflexivity|].
    rewrite (Z.mul_comm 256), Z.mod_add by lia. reflexivity.
  - replace ((Z_of_byte b + 256 * le_value bs) / 256) with (le_value bs); [exact IH|].
    rewrite (Z.mul_comm 256), Z.div_add by lia.
    rewrite (Z.div_small (Z_of_byte b)) by lia. lia.
Qed.

Lemma to_signed_mod w z :
  (0 < w)%nat ->
  - (256 ^ Z.of_nat w / 2) <= z < 256 ^ Z.of_nat w / 2 ->
  to_signed w (z mod 256 ^ Z.of_nat w) = z.
Proof.
  intros Hw Hz. unfold to_signed.
  set (M := 256 ^ Z.of_nat w) in *.
  assert (HM : M = 2 * (M / 2)).
  { subst M. destruct w as [|w]; [lia|].
    rewrite Nat2Z.inj_succ, Z.pow_succ_r by lia.
    replace (256 * 256 ^ Z.of_nat w) with (2 * (128 * 256 ^ Z.of_nat w)) by lia.
    rewrite Z.mul_comm at 2. rewrite Z.div_mul by lia. lia. }
  assert (0 < M) by (subst M; apply Z.pow_pos_nonneg; lia).
  destruct (Z_lt_le_dec z 0) as [Hn|Hp].
  - replace (z mod M) with (z + M).
    + destruct (Z.ltb_spec (z + M) (M / 2)); lia.
    + apply Z.mod_unique with (q := -1); lia.
  - rewrite Z.mod_small by lia.
    destruct (Z.ltb_spec z (M / 2)); lia.
Qed.

Lemma le_bytes_mod n z : le_bytes n (z mod 256 ^ Z.of_nat n) = le_bytes n z.
Proof.
  rewrite <- (le_value_bytes n z).
  rewrite <- (le_bytes_length n z) at 1. apply le_bytes_value.
Qed.

Lemma le_bytes_to_signed bs :
  le_bytes (length bs) (to_signed (length bs) (le_value bs)) = bs.
Proof.
  rewrite <- (le_bytes_mod _ (to_signed _ _)).
  replace (to_signed (length bs) (le_value bs) mod 256 ^ Z.of_nat (length bs))
    with (le_value bs mod 256 ^ Z.of_nat (length bs)).
  - rewrite le_bytes_mod. apply le_bytes_value.
  - unfold to_signed. destruct (le_value bs <? _); [reflexivity|].
    set (M := 256 ^ Z.of_nat (length bs)).
    replace (le_value bs - M) with (le_value bs + (-1) * M) by lia.
    now rewrite Z.mod_add by (subst M; apply Z.pow_nonzero; lia).
Qed.

(** ** Hexadecimal strings *)

Lemma byte_nibbles b :
  hexval (hexdigit (hi_nibble b)) = Some (hi_nibble b) /\
  hexval (hexdigit (lo_nibble b)) = Some (lo_nibble b) /\
  byte_of_nibbles (hi_nibble b) (lo_nibble b) = b.
Proof. destruct b; repeat split; vm_compute; reflexivity. Qed.

Lemma fromHex_toHex bs : fromHex (toHex bs) = bs.
Proof.
  induction bs as [|b bs IH]; [reflexivity|].
  destruct (byte_nibbles b) as (Hh & Hl & Hb).
  cbn [toHex fromHex]. rewrite Hh, Hl, Hb, IH. reflexivity.
Qed.

Lemma toHex_length bs : String.length (toHex bs) = (2 * length bs)%nat.
Proof. induction bs as [|b bs IH]; [reflexivity|]. cbn [toHex String.length length]. lia. Qed.

Lemma toHex_app xs ys : toHex (xs ++ ys) = (toHex xs ++ toHex ys)%string.
Proof. induction xs as [|x xs IH]; [reflexivity|]. cbn. now rewrite IH. Qed.

Lemma toHex_is_lower_hex bs : is_lower_hex (toHex bs) = true.
Proof.
  induction bs as [|b bs IH]; [reflexivity|].
  cbn [toHex is_lower_hex]. rewrite IH.
  assert (is_lower_hex_char (hexdigit (hi_nibble b)) = true /\
          is_lower_hex_char (hexdigit (lo_nibble b)) = true) as [-> ->];
    [|reflexivity].
  destruct b; split; vm_compute; reflexivity.
Qed.

Lemma lower_hex_char_digit c :
  is_lower_hex_char c = true ->
  exists n, (n < 16)%N /\ hexval c = Some n /\ hexdigit n = c.
Proof.
  unfold is_lower_hex_char. destruct (hexval c) as [n|] eqn:E; [|discriminate].
  intros Hc. apply Ascii.eqb_eq in Hc. exists n. repeat split; try assumption.
  unfold hexval in E.
  repeat match type of E with
         | (if ?b then _ else _) = _ =>
             let Hb := fresh "Hb" in
             destruct b eqn:Hb;
             [apply andb_prop in Hb as [_ Hb]; apply N.leb_le in Hb|clear Hb]
         end; try discriminate; inversion E; subst; lia.
Qed.

Lemma nibbles_of_byte hi lo :
  (hi < 16)%N -> (lo < 16)%N ->
  hi_nibble (byte_of_nibbles hi lo) = hi /\ lo_nibble (byte_of_nibbles hi lo) = lo.
Proof.
  intros Hh Hl. unfold hi_nibble, lo_nibble, byte_of_nibbles.
  assert (E : Byte.to_N (byte_of_Z (Z.of_N (16 * hi + lo))) = (16 * hi + lo)%N).
  { pose proof (Z_of_byte_of_Z (Z.of_N (16 * hi + lo))) as H.
    unfold Z_of_byte in H. rewrite Z.mod_small in H by lia. lia. }
  rewrite E. split.
  - symmetry. apply N.div_unique with (r := lo); lia.
  - symmetry. apply N.mod_unique with (q := hi); lia.
Qed.

(** Induction over a string two characters at a time. *)
Lemma string_pair_ind (P : string -> Prop) :
  P "" -> (forall c, P (String c "")) ->
  (forall c1 c2 s, P s -> P (String c1 (String c2 s))) ->
  forall s, P s.
Proof.
  intros H0 H1 H2 s.
  enough (P s /\ forall c, P (String c s)) by tauto.
  induction s as [|c s [IH1 IH2]]; split; auto.
Qed.

Lemma toHex_fromHex s : is_lower_hex s = true -> toHex (fromHex s) = s.
Proof.
  induction s as [| c | c1 c2 s IH] using string_pair_ind; try reflexivity.
  - discriminate.
  - cbn [is_lower_hex]. intros H.
    apply andb_prop in H as [H Hs]. apply andb_prop in H as [H1 H2].
    destruct (lower_hex_char_digit _ H1) as (h & Hh & Eh & Dh).
    destruct (lower_hex_char_digit _ H2) as (l & Hl & El & Dl).
    cbn [fromHex]. rewrite Eh, El. cbn [toHex].
    destruct (nibbles_of_byte h l Hh Hl) as [-> ->].
    rewrite Dh, Dl, (IH Hs). reflexivity.
Qed.

Lemma fromHex_length s :
  is_lower_hex s = true -> String.length s = (2 * length (fromHex s))%nat.
Proof.
  intros H. rewrite <- (toHex_fromHex s H) at 1. apply toHex_length.
Qed.

Lemma hex_pair_inj a b :
  hexdigit (hi_nibble a) = hexdigit (hi_nibble b) ->
  hexdigit (lo_nibble a) = hexdigit (lo_nibble b) -> a = b.
Proof.
  intros Hh Hl.
  destruct (byte_nibbles a) as (Ea1 & Ea2 & Ea), (byte_nibbles b) as (Eb1 & Eb2 & Eb).
  rewrite Hh, Eb1 in Ea1. rewrite Hl, Eb2 in Ea2.
  inversion Ea1 as [E1]. inversion Ea2 as [E2].
  rewrite <- Ea, <- Eb, E1, E2. reflexivity.
Qed.

Lemma prefix_toHex p s :
  String.prefix (toHex p) (toHex s) = true <-> firstn (length p) s = p.
Proof.
  revert s. induction p as [|a p IH]; intros s;
    [destruct s; cbn; split; reflexivity|].
  destruct s as [|b s]; [cbn; split; discriminate|].
  cbn [toHex String.prefix length firstn].
  destruct (ascii_dec (hexdigit (hi_nibble a)) (hexdigit (hi_nibble b))) as [Eh|Nh].
  - destruct (ascii_dec (hexdigit (lo_nibble a)) (hexdigit (lo_nibble b))) as [El|Nl].
    + rewrite (hex_pair_inj a b Eh El), IH. split; [intros ->; reflexivity|].
      intros H. inversion H as [H']. now rewrite H'.
    + split; [discriminate|]. intros H. inversion H; subst. now destruct Nl.
  - split; [discriminate|]. intros H. inversion H; subst. now destruct Nh.
Qed.

Lemma slice_from_toHex k s : slice_from (2 * k) (toHex s) = toHex (skipn k s).
Proof.
  revert s. induction k as [|k IH]; intros s; [reflexivity|].
  replace (2 * S k)%nat with (S (S (2 * k))) by lia.
  destruct s as [|b s]; [reflexivity|]. cbn [toHex slice_from skipn]. apply IH.
Qed.

(** ** The store *)

Lemma lookup_app_plus {A} (l1 l2 : list A) (i : nat) :
  (l1 ++ l2) !! (length l1 + i)%nat = l2 !! i.
Proof.
  rewrite lookup_app_r by lia. f_equal. lia.
Qed.

Lemma lookup_app_length {A} (l1 l2 : list A) (x : A) :
  (l1 ++ x :: l2) !! length l1 = Some x.
Proof. apply list_lookup_middle. reflexivity. Qed.

Lemma lookup_app_old {A} (l1 l2 : list A) (i : nat) (x : A) :
  l1 !! i = Some x -> (l1 ++ l2) !! i = Some x.
Proof. intros H. apply lookup_app_l_Some. exact H. Qed.

Lemma deref_app_old h ext v o : deref h v = Some o -> deref (h ++ ext) v = Some o.
Proof. destruct v; simpl; try discriminate. apply lookup_app_old. Qed.

Lemma preserves_app h ext : preserves h (h ++ ext).
Proof. intros l o. apply lookup_app_old. Qed.

(** ** The header layout *)

Lemma firstn_app_exact {A} (n : nat) (a b : list A) :
  length a = n -> firstn n (a ++ b) = a.
Proof.
  intros <-. rewrite firstn_app, Nat.sub_diag, firstn_all. cbn. apply app_nil_r.
Qed.

Lemma skipn_app_exact {A} (n : nat) (a b : list A) :
  length a = n -> skipn n (a ++ b) = b.
Proof.
  intros <-. rewrite skipn_app, Nat.sub_diag, skipn_all. reflexivity.
Qed.

Lemma firstn_length_exact {A} (n : nat) (l : list A) :
  (n <= length l)%nat -> length (firstn n l) = n.
Proof. intros H. rewrite length_firstn. lia. Qed.

Lemma decodeHeaderOnly_total bs :
  (80 <= length bs)%nat -> exists blk, decodeHeaderOnly bs = inr blk.
Proof.
  intros H. unfold decodeHeaderOnly.
  destruct (Nat.ltb_spec (length bs) 80); [lia|eauto].
Qed.

Lemma decodeHeaderOnly_firstn bs :
  decodeHeaderOnly (firstn 80 bs) = decodeHeaderOnly bs.
Proof.
  unfold decodeHeaderOnly. rewrite length_firstn.
  destruct (Nat.ltb_spec (length bs) 80) as [Hlt|Hge].
  - rewrite Nat.min_r by lia. destruct (Nat.ltb_spec (length bs) 80); [reflexivity|lia].
  - rewrite Nat.min_l by lia. cbn [Nat.ltb Nat.leb].
    rewrite !skipn_firstn_comm, !firstn_firstn. reflexivity.
Qed.

Lemma is_int32_spec z : is_int32 z = true <-> - 2 ^ 31 <= z < 2 ^ 31.
Proof. unfold is_int32. rewrite andb_true_iff, Z.leb_le, Z.ltb_lt. tauto. Qed.

Lemma is_uint32_spec z : is_uint32 z = true <-> 0 <= z < 2 ^ 32.
Proof. unfold is_uint32. rewrite andb_true_iff, Z.leb_le, Z.ltb_lt. tauto. Qed.

Lemma u32_roundtrip z rest :
  is_uint32 z = true -> le_value (firstn 4 (le_bytes 4 z ++ rest)) = z.
Proof.
  intros H. apply is_uint32_spec in H.
  rewrite firstn_app_exact by apply le_bytes_length.
  rewrite le_value_bytes. apply Z.mod_small.
  change (256 ^ Z.of_nat 4) with (2 ^ 32). lia.
Qed.

Lemma i32_roundtrip z rest :
  is_int32 z = true -> to_signed 4 (le_value (firstn 4 (le_bytes 4 z ++ rest))) = z.
Proof.
  intros H. apply is_int32_spec in H.
  rewrite firstn_app_exact by apply le_bytes_length.
  rewrite le_value_bytes. apply to_signed_mod; [lia|].
  change (256 ^ Z.of_nat 4 / 2) with (2 ^ 31). lia.
Qed.

Lemma BitcoinBlock_encode_length b :
  block_in_range b -> length (BitcoinBlock_encode b) = 80%nat.
Proof.
  intros (_ & Hp & Hm & _). unfold BitcoinBlock_encode.
  rewrite !length_app, !le_bytes_length, Hp, Hm. reflexivity.
Qed.

Lemma decodeHeaderOnly_encode b :
  block_in_range b -> decodeHeaderOnly (BitcoinBlock_encode b) = inr b.
Proof.
  intros Hr. pose proof (BitcoinBlock_encode_length b Hr) as Hlen.
  destruct Hr as (Hv & Hp & Hm & Ht & Hb & Hn).
  unfold decodeHeaderOnly. rewrite Hlen. cbn [Nat.ltb Nat.leb].
  destruct b as [v p m t bi n]; cbn [blk_version blk_previousblockhash blk_merkleroot
    blk_time blk_bits blk_nonce] in *.
  unfold BitcoinBlock_encode; cbn [blk_version blk_previousblockhash blk_merkleroot
    blk_time blk_bits blk_nonce].
  change 76%nat with (4 + (4 + (32 + (32 + 4))))%nat.
  change 72%nat with (4 + (32 + (32 + 4)))%nat.
  change 68%nat with (32 + (32 + 4))%nat.
  change 36%nat with (32 + 4)%nat.
  rewrite <- !skipn_skipn.
  rewrite (skipn_app_exact 4 (le_bytes 4 v)) by apply le_bytes_length.
  rewrite (skipn_app_exact 32 p) by exact Hp.
  rewrite (skipn_app_exact 32 m) by exact Hm.
  rewrite (skipn_app_exact 4 (le_bytes 4 t)) by apply le_bytes_length.
  rewrite (skipn_app_exact 4 (le_bytes 4 bi)) by apply le_bytes_length.
  rewrite (firstn_app_exact 32 p) by exact Hp.
  rewrite (firstn_app_exact 32 m) by exact Hm.
  rewrite (i32_roundtrip v) by exact Hv.
  rewrite (u32_roundtrip t) by exact Ht.
  rewrite (u32_roundtrip bi) by exact Hb.
  rewrite <- (app_nil_r (le_bytes 4 n)), (u32_roundtrip n) by exact Hn.
  reflexivity.
Qed.

Lemma is_hash_hex_spec s :
  is_hash_hex s = true -> is_lower_hex s = true /\ length (fromHex s) = 32%nat.
Proof.
  unfold is_hash_hex. rewrite andb_true_iff, Nat.eqb_eq. intros [Hl Hlen].
  split; [exact Hl|]. pose proof (fromHex_length s Hl). lia.
Qed.

Lemma block_of_fields_in_range r :
  fields_in_range r = true -> block_in_range (block_of_fields r).
Proof.
  destruct r as [[[[[v p] m] t] b] n]. unfold fields_in_range.
  rewrite !andb_true_iff. intros (((((Hv & Hp) & Hm) & Ht) & Hb) & Hn).
  apply is_hash_hex_spec in Hp as [_ Hp]. apply is_hash_hex_spec in Hm as [_ Hm].
  unfold block_in_range; cbn. rewrite !length_rev. tauto.
Qed.

Lemma primitive_fields_porcelain b :
  primitive_fields (porcelain_fields b) =
    Some (blk_version b, toHex (rev (blk_previousblockhash b)),
          toHex (rev (blk_merkleroot b)), blk_time b, blk_bits b, blk_nonce b).
Proof. reflexivity. Qed.

Lemma primitive_fields_insert k x f :
  k <> "version" -> k <> "previousblockhash" -> k <> "merkleroot" ->
  k <> "time" -> k <> "bits" -> k <> "nonce" ->
  primitive_fields (<[k := x]> f) = primitive_fields f.
Proof.
  intros. unfold primitive_fields. now rewrite !lookup_insert_ne by congruence.
Qed.

Lemma porcelain_of_fields r :
  fields_in_range r = true ->
  primitive_fields (porcelain_fields (block_of_fields r)) = Some r.
Proof.
  destruct r as [[[[[v p] m] t] b] n]. unfold fields_in_range.
  rewrite !andb_true_iff. intros (((((Hv & Hp) & Hm) & Ht) & Hb) & Hn).
  apply is_hash_hex_spec in Hp as [Hp _]. apply is_hash_hex_spec in Hm as [Hm _].
  rewrite primitive_fields_porcelain. cbn.
  rewrite !rev_involutive, !toHex_fromHex by assumption. reflexivity.
Qed.

Lemma decoded_block_in_range bs blk :
  decodeHeaderOnly bs = inr blk -> block_in_range blk.
Proof.
  unfold decodeHeaderOnly. destruct (Nat.ltb_spec (length bs) 80) as [|Hlen]; [discriminate|].
  intros E. inversion E; subst blk; clear E. unfold block_in_range.
  cbn [blk_version blk_previousblockhash blk_merkleroot blk_time blk_bits blk_nonce].
  assert (H4 : forall k, (k + 4 <= length bs)%nat -> length (firstn 4 (skipn k bs)) = 4%nat).
  { intros k Hk. apply firstn_length_exact. rewrite length_skipn. lia. }
  assert (Hu : forall k, (k + 4 <= length bs)%nat ->
                 is_uint32 (le_value (firstn 4 (skipn k bs))) = true).
  { intros k Hk. apply is_uint32_spec.
    pose proof (le_value_range (firstn 4 (skipn k bs))) as Hr.
    rewrite (H4 k Hk) in Hr. change (256 ^ Z.of_nat 4) with (2 ^ 32) in Hr. exact Hr. }
  repeat split.
  - apply is_int32_spec.
    pose proof (le_value_range (firstn 4 bs)) as Hr.
    rewrite firstn_length_exact in Hr by lia.
    change (256 ^ Z.of_nat 4) with (2 ^ 32) in Hr. unfold to_signed.
    change (256 ^ Z.of_nat 4 / 2) with (2 ^ 31). change (256 ^ Z.of_nat 4) with (2 ^ 32).
    destruct (Z.ltb_spec (le_value (firstn 4 bs)) (2 ^ 31)); lia.
  - apply firstn_length_exact. rewrite length_skipn. lia.
  - apply firstn_length_exact. rewrite length_skipn. lia.
  - apply Hu. lia.
  - apply Hu. lia.
  - apply Hu. lia.
Qed.

Lemma encode_decoded_block bs blk :
  decodeHeaderOnly bs = inr blk -> BitcoinBlock_encode blk = firstn 80 bs.
Proof.
  unfold decodeHeaderOnly. destruct (Nat.ltb_spec (length bs) 80) as [|Hlen]; [discriminate|].
  intros E. inversion E; subst blk; clear E. unfold BitcoinBlock_encode.
  cbn [blk_version blk_previousblockhash blk_merkleroot blk_time blk_bits blk_nonce].
  assert (Hs : forall k, (k + 4 <= length bs)%nat ->
                 le_bytes 4 (le_value (firstn 4 (skipn k bs))) = firstn 4 (skipn k bs)).
  { intros k Hk.
    rewrite <- (firstn_length_exact 4 (skipn k bs)) at 1 by (rewrite length_skipn; lia).
    apply le_bytes_value. }
  rewrite !Hs by lia.
  rewrite <- (firstn_length_exact 4 bs) at 1 2 by lia. rewrite le_bytes_to_signed.
  change 80%nat with (4 + (32 + (32 + (4 + (4 + 4)))))%nat.
  rewrite <- !take_take_drop, !drop_drop. reflexivity.
Qed.

Lemma porcelain_fields_in_range blk :
  block_in_range blk ->
  exists r, primitive_fields (porcelain_fields blk) = Some r /\
            fields_in_range r = true /\ block_of_fields r = blk.
Proof.
  intros (Hv & Hp & Hm & Ht & Hb & Hn).
  eexists. split; [apply primitive_fields_porcelain|]. split.
  - unfold fields_in_range, is_hash_hex.
    rewrite Hv, Ht, Hb, Hn, !toHex_is_lower_hex, !toHex_length, !length_rev, Hp, Hm.
    reflexivity.
  - destruct blk. cbn. now rewrite !fromHex_toHex, !rev_involutive.
Qed.

(** ** Running [decode] and [encode] *)

(** The outcome of [decode] on a direct [Uint8Array], in closed form: four
    cells are allocated after the existing ones. *)
Lemma decode_Uint8Array h l bs blk :
  h !! l = Some (HBytes "Uint8Array" bs) ->
  decodeHeaderOnly bs = inr blk ->
  decode (JRef l) h =
    (inr (JRef (length h + 1)),
     h ++ [HBytes "Buffer" bs;
           HObj (<["tx" := JRef (length h + 3)]>
                 (<["parent" := JRef (length h + 2)]> (porcelain_fields blk)));
           HCid (parent_cid blk);
           HCid (tx_cid blk)]).
Proof.
  intros Hl Hd. unfold decode, instanceof_Uint8Array, constructor_name_is.
  cbn [deref]. rewrite Hl. cbn [String.eqb Ascii.eqb Bool.eqb andb negb].
  unfold bind at 1. unfold Buffer_from. cbn [deref]. rewrite Hl. unfold alloc.
  unfold bind at 1. unfold bytes_of. cbn [deref].
  rewrite lookup_app_length.
  unfold bind at 1. rewrite Hd. cbn [lift ret].
  unfold bind at 1. unfold toPorcelain, alloc.
  rewrite <- app_assoc, length_app. cbn [app length].
  unfold bind at 1. unfold get_prop. cbn [deref]. rewrite lookup_app_plus.
  cbn [lookup list_lookup].
  replace (porcelain_fields blk !! "previousblockhash")
    with (Some (JStr (toHex (rev (blk_previousblockhash blk))))) by reflexivity.
  cbn [default from_option id].
  unfold bind at 1. cbn [fromHashHex lift ret].
  rewrite fromHex_toHex, rev_involutive.
  unfold bind at 1. unfold new_CID at 1, alloc. cbn [multihash_encode mh_algorithm mh_digest].
  rewrite length_app. cbn [app length].
  unfold bind at 1. unfold set_prop at 1. rewrite <- app_assoc. cbn [app].
  rewrite lookup_app_plus. cbn [lookup list_lookup].
  rewrite insert_app_r. cbn [insert list_insert].
  unfold bind at 1. rewrite lookup_app_plus. cbn [lookup list_lookup].
  replace ((<["parent" := JRef (length h + 2)]> (porcelain_fields blk)) !! "merkleroot")
    with (Some (JStr (toHex (rev (blk_merkleroot blk))))) by reflexivity.
  cbn [default from_option id].
  unfold bind at 1. cbn [fromHashHex lift ret].
  rewrite fromHex_toHex, rev_involutive.
  unfold bind at 1. unfold new_CID at 1, alloc. cbn [multihash_encode mh_algorithm mh_digest].
  rewrite length_app. cbn [app length].
  unfold bind at 1. unfold set_prop at 1. rewrite <- app_assoc. cbn [app].
  rewrite lookup_app_plus. cbn [lookup list_lookup].
  rewrite insert_app_r. cbn [insert list_insert].
  reflexivity.
Qed.

Lemma decode_guard_false h v :
  (forall bs, deref h v <> Some (HBytes "Uint8Array" bs)) ->
  decode v h = (inl decode_TypeError, h).
Proof.
  intros Hn. unfold decode, instanceof_Uint8Array, constructor_name_is.
  destruct (deref h v) as [[f|xs|ctor data|c]|] eqn:E; try reflexivity.
  destruct (String.eqb_spec ctor "Uint8Array") as [->|Hne]; [|reflexivity].
  now destruct (Hn data).
Qed.

Lemma decode_truncated h l bs :
  h !! l = Some (HBytes "Uint8Array" bs) ->
  (length bs < 80)%nat ->
  decode (JRef l) h = (inl MalformedEncoding, h ++ [HBytes "Buffer" bs]).
Proof.
  intros Hl Hlen. unfold decode, instanceof_Uint8Array, constructor_name_is.
  cbn [deref]. rewrite Hl. cbn [String.eqb Ascii.eqb Bool.eqb andb negb].
  unfold bind at 1. unfold Buffer_from. cbn [deref]. rewrite Hl. unfold alloc.
  unfold bind at 1. unfold bytes_of. cbn [deref].
  rewrite lookup_app_length.
  unfold bind at 1. unfold decodeHeaderOnly.
  destruct (Nat.ltb_spec (length bs) 80); [reflexivity|lia].
Qed.

Lemma view_decode h l bs blk :
  h !! l = Some (HBytes "Uint8Array" bs) ->
  decodeHeaderOnly bs = inr blk ->
  view (decode (JRef l) h) =
    inr (Some {| view_keys := dom (decoded_fields blk 0);
                 view_fields := primitive_fields (porcelain_fields blk);
                 view_parent := Some (parent_cid blk);
                 view_tx := Some (tx_cid blk) |}).
Proof.
  intros Hl Hd. rewrite (decode_Uint8Array h l bs blk Hl Hd).
  unfold view. cbn [deref]. rewrite lookup_app_plus. cbn [lookup list_lookup].
  set (g := <["tx" := JRef (length h + 3)]>
              (<["parent" := JRef (length h + 2)]> (porcelain_fields blk))).
  set (h' := h ++ _).
  assert (Hk : dom g = dom (decoded_fields blk 0)).
  { unfold g, decoded_fields. rewrite !dom_insert_L. reflexivity. }
  assert (Hf : primitive_fields g = primitive_fields (porcelain_fields blk)).
  { unfold g. now rewrite !primitive_fields_insert by discriminate. }
  assert (Hp : link_of h' g "parent" = Some (parent_cid blk)).
  { unfold link_of, g, h'. rewrite lookup_insert_ne by discriminate.
    rewrite lookup_insert_eq. cbn [deref]. rewrite lookup_app_plus. reflexivity. }
  assert (Ht : link_of h' g "tx" = Some (tx_cid blk)).
  { unfold link_of, g, h'. rewrite lookup_insert_eq. cbn [deref].
    rewrite lookup_app_plus. reflexivity. }
  rewrite Hk, Hf, Hp, Ht. reflexivity.
Qed.

Lemma decode_accepts_inv h v r h' :
  decode v h = (inr r, h') ->
  exists l bs blk,
    v = JRef l /\ h !! l = Some (HBytes "Uint8Array" bs) /\
    (80 <= length bs)%nat /\ decodeHeaderOnly bs = inr blk.
Proof.
  intros Hdec.
  destruct (deref h v) as [[f|xs|ctor data|c]|] eqn:E;
    try (rewrite decode_guard_false in Hdec by (intros bs; congruence); discriminate).
  destruct (String.eqb_spec ctor "Uint8Array") as [->|Hne];
    [|rewrite decode_guard_false in Hdec by (intros bs; congruence); discriminate].
  destruct v; try discriminate. cbn [deref] in E.
  destruct (le_lt_dec 80 (length data)) as [Hge|Hlt].
  - destruct (decodeHeaderOnly_total data Hge) as [blk Hblk]. eauto 8.
  - rewrite (decode_truncated _ _ _ E Hlt) in Hdec. discriminate.
Qed.

Section CodecFacts.

Variable cid_props : ContentIdentifier -> gmap string jsval.

Lemma own_enumerable_app h ext v o :
  deref h v = Some o ->
  own_enumerable cid_props (h ++ ext) v = own_enumerable cid_props h v.
Proof.
  destruct v; cbn [deref]; try discriminate. intros Hl.
  unfold own_enumerable. rewrite (lookup_app_old _ ext _ _ Hl), Hl. reflexivity.
Qed.

Lemma encode_guard_false h v :
  typeof v <> "object" -> encode cid_props v h = (inl encode_TypeError, h).
Proof.
  intros Ht. unfold encode.
  destruct (String.eqb_spec (typeof v) "object") as [E|_]; [contradiction|reflexivity].
Qed.

(** The outcome of [encode] on a value that passes the guard, in closed
    form: the copy and the literal [{ tx: null }] are the only new cells. *)
Lemma encode_object h v :
  typeof v = "object" ->
  let lit := HObj {["tx" := JNull]} in
  let f := <["tx" := JNull]> (own_enumerable cid_props (h ++ [HObj ∅; lit]) v) in
  encode cid_props v h =
    (match header_of_fields f with
     | inl e => inl e
     | inr blk => inr (BitcoinBlock_encode blk)
     end,
     h ++ [HObj f; lit]).
Proof.
  intros Ht lit f. unfold encode. rewrite Ht.
  cbn [String.eqb Ascii.eqb Bool.eqb negb].
  unfold bind at 1. unfold alloc at 1.
  unfold bind at 1. unfold alloc at 1.
  rewrite <- app_assoc, length_app. cbn [app length].
  unfold bind at 1. unfold Object_assign.
  rewrite lookup_app_length. cbn [foldl].
  assert (Hlit : own_enumerable cid_props (h ++ [HObj ∅; lit])
                   (JRef (length h + 1)) = {["tx" := JNull]}).
  { unfold own_enumerable. rewrite lookup_app_plus. reflexivity. }
  fold lit. rewrite Hlit.
  rewrite (right_id_L ∅ (∪)), <- insert_union_singleton_l. fold f.
  rewrite <- (Nat.add_0_r (length h)) at 2. rewrite insert_app_r.
  cbn [insert list_insert].
  unfold bind at 1. unfold fromPorcelain. cbn [deref].
  rewrite lookup_app_length.
  destruct (header_of_fields f); reflexivity.
Qed.

Lemma encode_ref h l o :
  h !! l = Some o ->
  let f := <["tx" := JNull]> (own_enumerable cid_props h (JRef l)) in
  encode cid_props (JRef l) h =
    (match header_of_fields f with
     | inl e => inl e
     | inr blk => inr (BitcoinBlock_encode blk)
     end,
     h ++ [HObj f; HObj {["tx" := JNull]}]).
Proof.
  intros Hl f. rewrite encode_object by reflexivity.
  rewrite (own_enumerable_app h _ (JRef l) o Hl). reflexivity.
Qed.

Lemma encode_preserves h v : preserves h (encode cid_props v h).2.
Proof.
  destruct (String.eqb_spec (typeof v) "object") as [Ht|Ht].
  - rewrite (encode_object h v Ht). apply preserves_app.
  - rewrite (encode_guard_false h v Ht). intros l o Hl. exact Hl.
Qed.

End CodecFacts.

(** ** Properties of the block-header codec *)

Section CodecProperties.

Variable cid_props : ContentIdentifier -> gmap string jsval.

Lemma header_of_fields_override f :
  header_of_fields (<["tx" := JNull]> f) =
    match primitive_fields f with
    | Some r => if fields_in_range r then inr (block_of_fields r) else inl TypeMismatch
    | None => inl TypeMismatch
    end.
Proof.
  unfold header_of_fields. rewrite lookup_insert_eq.
  now rewrite primitive_fields_insert by discriminate.
Qed.

Lemma encode_valid_record h l f r :
  h !! l = Some (HObj f) ->
  primitive_fields f = Some r ->
  fields_in_range r = true ->
  (encode cid_props (JRef l) h).1 = inr (BitcoinBlock_encode (block_of_fields r)).
Proof.
  intros Hl Hf Hr. rewrite (encode_ref cid_props h l _ Hl). cbn [fst].
  unfold own_enumerable. rewrite Hl, header_of_fields_override, Hf, Hr. reflexivity.
Qed.

Lemma encode_valid_length h l f :
  h !! l = Some (HObj f) ->
  valid_header_record f = true ->
  exists bytes,
    (encode cid_props (JRef l) h).1 = inr bytes /\ length bytes = 80%nat.
Proof.
  intros Hl Hv. unfold valid_header_record in Hv.
  destruct (primitive_fields f) as [r|] eqn:Hf; [|discriminate].
  exists (BitcoinBlock_encode (block_of_fields r)). split.
  - now apply encode_valid_record with (f := f).
  - apply BitcoinBlock_encode_length. now apply block_of_fields_in_range.
Qed.

(** C1. For every valid header record (the six primitive fields present,
    with the types and ranges of the data model), [encode] yields 80 bytes,
    and [decode] of a [Uint8Array] holding those bytes yields a record that
    has the same six primitive fields; the derived [parent] and [tx] links
    are not compared. *)
Theorem decode_encode_roundtrip h l f :
  h !! l = Some (HObj f) ->
  valid_header_record f = true ->
  exists bytes,
    (encode cid_props (JRef l) h).1 = inr bytes /\
    length bytes = 80%nat /\
    forall h2 lb,
      h2 !! lb = Some (HBytes "Uint8Array" bytes) ->
      exists hv,
        view (decode (JRef lb) h2) = inr (Some hv) /\
        view_fields hv = primitive_fields f.
Proof.
  intros Hl Hv. unfold valid_header_record in Hv.
  destruct (primitive_fields f) as [r|] eqn:Hf; [|discriminate].
  pose proof (block_of_fields_in_range r Hv) as Hrange.
  exists (BitcoinBlock_encode (block_of_fields r)). split; [|split].
  - now apply encode_valid_record with (f := f).
  - now apply BitcoinBlock_encode_length.
  - intros h2 lb Hlb.
    rewrite (view_decode h2 lb _ _ Hlb (decodeHeaderOnly_encode _ Hrange)).
    eexists. split; [reflexivity|]. cbn [view_fields].
    now apply porcelain_of_fields.
Qed.

(** C6. [encode] never looks at the [tx] property: two records that agree
    on every property other than [tx] are encoded to the same result, and
    for a valid header that result is 80 bytes. *)
Theorem encode_ignores_tx h l1 l2 f1 f2 :
  h !! l1 = Some (HObj f1) ->
  h !! l2 = Some (HObj f2) ->
  (forall k, k <> "tx" -> f1 !! k = f2 !! k) ->
  (encode cid_props (JRef l1) h).1 = (encode cid_props (JRef l2) h).1 /\
  (valid_header_record f1 = true ->
   exists bytes,
     (encode cid_props (JRef l2) h).1 = inr bytes /\ length bytes = 80%nat).
Proof.
  intros H1 H2 Hagree.
  assert (E : <["tx" := JNull]> f1 = <["tx" := JNull]> f2 :> gmap string jsval).
  { apply map_eq. intros k. destruct (decide (k = "tx")) as [->|Hk].
    - now rewrite !lookup_insert_eq.
    - rewrite !lookup_insert_ne by congruence. now apply Hagree. }
  assert (Eenc : (encode cid_props (JRef l1) h).1 = (encode cid_props (JRef l2) h).1).
  { rewrite (encode_ref cid_props h l1 _ H1), (encode_ref cid_props h l2 _ H2).
    cbn [fst]. unfold own_enumerable. rewrite H1, H2, E. reflexivity. }
  split; [exact Eenc|]. intros Hv. rewrite <- Eenc.
  destruct (encode_valid_length h l1 f1 H1 Hv) as (bytes & Hb & Hlen).
  eauto.
Qed.

(** C7. Every input whose [typeof] is not "object" (a number, a string,
    [undefined], a boolean, a function) is rejected by the guard with a
    [TypeError], before anything is copied or serialized: the store is
    left as it was. *)
Theorem encode_rejects_non_objects h v :
  typeof v <> "object" ->
  encode cid_props v h = (inl (TypeError "Can only encode() an object"), h).
Proof. apply encode_guard_false. Qed.

Lemma decode_preserves h v : preserves h (decode v h).2.
Proof.
  destruct (deref h v) as [[f|xs|ctor data|c]|] eqn:E;
    try (rewrite decode_guard_false by (intros bs; congruence); intros l o Hl; exact Hl).
  destruct (String.eqb_spec ctor "Uint8Array") as [->|Hne];
    [|rewrite decode_guard_false by (intros bs; congruence); intros l o Hl; exact Hl].
  destruct v; try discriminate. cbn [deref] in E.
  destruct (le_lt_dec 80 (length data)) as [Hge|Hlt].
  - destruct (decodeHeaderOnly_total data Hge) as [blk Hblk].
    rewrite (decode_Uint8Array _ _ _ _ E Hblk). apply preserves_app.
  - rewrite (decode_truncated _ _ _ E Hlt). apply preserves_app.
Qed.

(** C9. Neither operation changes a cell that existed before the call,
    whatever its input: after [encode(r)] the record [r] still has all its
    properties, [tx] included, and after [decode(b)] the byte array [b]
    holds the same bytes. *)
Theorem codec_leaves_inputs_unchanged h v l o :
  h !! l = Some o ->
  (encode cid_props v h).2 !! l = Some o /\ (decode v h).2 !! l = Some o.
Proof.
  intros Hl. split; [now apply encode_preserves | now apply decode_preserves].
Qed.

End CodecProperties.

(** C10. [decode] accepts direct [Uint8Array] instances only: a value whose
    constructor name is not "Uint8Array" is refused with a [TypeError], and
    so is a Node [Buffer], although it is a byte sequence and is named in the
    message. *)
Theorem decode_requires_direct_Uint8Array h v :
  constructor_name_is h v "Uint8Array" = false \/
  (exists bs, deref h v = Some (HBytes "Buffer" bs)) ->
  decode v h = (inl (TypeError "Can only decode() a Buffer or Uint8Array"), h).
Proof.
  intros [Hc|[bs Hb]]; apply decode_guard_false; intros bs' E.
  - unfold constructor_name_is in Hc. rewrite E in Hc. discriminate.
  - rewrite Hb in E. discriminate.
Qed.

(** C8. An input that is not a byte array is refused with a [TypeError]; for
    a byte array the outcome is the one of its first 80 bytes alone, and a
    direct [Uint8Array] of at least 80 bytes is always decoded: what follows
    the header is neither read nor required. *)
Theorem decode_reads_first_80_bytes h v :
  ((forall ctor bs, deref h v <> Some (HBytes ctor bs)) ->
   decode v h = (inl (TypeError "Can only decode() a Buffer or Uint8Array"), h)) /\
  (forall ctor bs h2 v2,
     deref h v = Some (HBytes ctor bs) ->
     deref h2 v2 = Some (HBytes ctor (firstn 80 bs)) ->
     view (decode v h) = view (decode v2 h2)) /\
  (forall bs,
     deref h v = Some (HBytes "Uint8Array" bs) ->
     (80 <= length bs)%nat ->
     exists hv, view (decode v h) = inr (Some hv)).
Proof.
  split; [|split].
  - intros Hn. apply decode_guard_false. intros bs. apply Hn.
  - intros ctor bs h2 v2 H1 H2.
    destruct (String.eqb_spec ctor "Uint8Array") as [->|Hne].
    + destruct v as [| | | | | |l]; try discriminate.
      destruct v2 as [| | | | | |l2]; try discriminate. cbn [deref] in H1, H2.
      destruct (le_lt_dec 80 (length bs)) as [Hge|Hlt].
      * destruct (decodeHeaderOnly_total bs Hge) as [blk Hblk].
        rewrite (view_decode h l bs blk H1 Hblk).
        rewrite (view_decode h2 l2 (firstn 80 bs) blk H2); [reflexivity|].
        now rewrite decodeHeaderOnly_firstn.
      * rewrite firstn_all2 in H2 by lia.
        rewrite (decode_truncated _ _ _ H1 Hlt), (decode_truncated _ _ _ H2 Hlt).
        reflexivity.
    + rewrite !decode_guard_false by (intros bs'; congruence). reflexivity.
  - intros bs Hb Hlen. destruct v as [| | | | | |l]; try discriminate.
    destruct (decodeHeaderOnly_total bs Hlen) as [blk Hblk].
    rewrite (view_decode h l bs blk Hb Hblk). eauto.
Qed.


(** In the modelled layout every direct [Uint8Array] of at least 80 bytes is
    decoded, and re-encoding the record gives back its first 80 bytes. *)
Lemma encode_decode_roundtrip cid_props h l bs :
  h !! l = Some (HBytes "Uint8Array" bs) ->
  (80 <= length bs)%nat ->
  exists ld,
    (decode (JRef l) h).1 = inr (JRef ld) /\
    (encode cid_props (JRef ld) (decode (JRef l) h).2).1 = inr (firstn 80 bs).
Proof.
  intros Hl Hlen. destruct (decodeHeaderOnly_total bs Hlen) as [blk Hblk].
  rewrite (decode_Uint8Array h l bs blk Hl Hblk). cbn [fst snd].
  exists (length h + 1)%nat. split; [reflexivity|].
  destruct (porcelain_fields_in_range blk (decoded_block_in_range bs blk Hblk))
    as (r & Hr & Hrange & Hblk').
  erewrite encode_valid_record;
    [| rewrite lookup_app_plus; reflexivity | | exact Hrange].
  - now rewrite Hblk', (encode_decoded_block bs blk Hblk).
  - now rewrite !primitive_fields_insert by discriminate.
Qed.

(** [null] has [typeof] "object": it passes the guard of [encode], is copied
    as an empty source, and is refused by the library for lack of fields. *)
Lemma encode_null_passes_guard cid_props h :
  typeof JNull = "object" /\
  encode cid_props JNull h
    = (inl TypeMismatch, h ++ [HObj {["tx" := JNull]}; HObj {["tx" := JNull]}]).
Proof.
  split; [reflexivity|]. rewrite encode_object by reflexivity.
  cbn [own_enumerable]. rewrite insert_empty. reflexivity.
Qed.

(** ** The codec on concrete inputs *)

Lemma decode_encode_roundtrip_witness :
  sample_store !! 0%nat = Some (HObj sample_record) /\
  valid_header_record sample_record = true /\
  exists bytes,
    (encode no_cid_props (JRef 0) sample_store).1 = inr bytes /\
    length bytes = 80%nat /\
    forall h2 lb,
      h2 !! lb = Some (HBytes "Uint8Array" bytes) ->
      exists hv,
        view (decode (JRef lb) h2) = inr (Some hv) /\
        view_fields hv = primitive_fields sample_record.
Proof.
  split; [reflexivity|]. split; [vm_compute; reflexivity|].
  apply (decode_encode_roundtrip no_cid_props sample_store 0%nat sample_record);
    [reflexivity | vm_compute; reflexivity].
Defined.

Lemma encode_ignores_tx_witness :
  sample_store !! 0%nat = Some (HObj sample_record) /\
  sample_store !! 1%nat = Some (HObj sample_header) /\
  (forall k, k <> "tx" -> sample_record !! k = sample_header !! k) /\
  (encode no_cid_props (JRef 0) sample_store).1
    = (encode no_cid_props (JRef 1) sample_store).1 /\
  (valid_header_record sample_record = true ->
   exists bytes,
     (encode no_cid_props (JRef 1) sample_store).1 = inr bytes /\
     length bytes = 80%nat).
Proof.
  assert (Hagree : forall k, k <> "tx" -> sample_record !! k = sample_header !! k).
  { intros k Hk. unfold sample_record. apply lookup_insert_ne. congruence. }
  split; [reflexivity|]. split; [reflexivity|]. split; [exact Hagree|].
  apply (encode_ignores_tx no_cid_props sample_store 0%nat 1%nat
           sample_record sample_header); [reflexivity | reflexivity | exact Hagree].
Defined.

Lemma encode_rejects_non_objects_witness :
  typeof (JNum 5) <> "object" /\
  encode no_cid_props (JNum 5) sample_store
    = (inl (TypeError "Can only encode() an object"), sample_store) /\
  encode no_cid_props (JStr "00") sample_store
    = (inl (TypeError "Can only encode() an object"), sample_store) /\
  encode no_cid_props JUndefined sample_store
    = (inl (TypeError "Can only encode() an object"), sample_store).
Proof.
  split; [discriminate|].
  split; [|split];
    apply (encode_rejects_non_objects no_cid_props sample_store); discriminate.
Defined.

Lemma decode_reads_first_80_bytes_witness :
  decode (JNum 5) block_store
    = (inl (TypeError "Can only decode() a Buffer or Uint8Array"), block_store) /\
  view (decode (JRef 0) block_store) = view (decode (JRef 0) header_store) /\
  exists hv, view (decode (JRef 0) block_store) = inr (Some hv).
Proof.
  split; [|split].
  - apply (proj1 (decode_reads_first_80_bytes block_store (JNum 5))).
    intros ctor bs. discriminate.
  - apply (proj1 (proj2 (decode_reads_first_80_bytes block_store (JRef 0)))
             "Uint8Array" (header_bytes ++ [x01; x02; x03])); reflexivity.
  - apply (proj2 (proj2 (decode_reads_first_80_bytes block_store (JRef 0)))
             (header_bytes ++ [x01; x02; x03])); [reflexivity | vm_compute; lia].
Defined.

Lemma codec_leaves_inputs_unchanged_witness :
  sample_store !! 0%nat = Some (HObj sample_record) /\
  (encode no_cid_props (JRef 0) sample_store).2 !! 0%nat = Some (HObj sample_record) /\
  block_store !! 0%nat = Some (HBytes "Uint8Array" (header_bytes ++ [x01; x02; x03])) /\
  (decode (JRef 0) block_store).2 !! 0%nat
    = Some (HBytes "Uint8Array" (header_bytes ++ [x01; x02; x03])).
Proof.
  split; [reflexivity|]. split.
  - apply (proj1 (codec_leaves_inputs_unchanged no_cid_props sample_store (JRef 0)
                    0%nat (HObj sample_record) eq_refl)).
  - split; [reflexivity|].
    apply (proj2 (codec_leaves_inputs_unchanged no_cid_props block_store (JRef 0)
                    0%nat _ eq_refl)).
Defined.

Lemma decode_requires_direct_Uint8Array_witness :
  (constructor_name_is buffer_store (JRef 0) "Uint8Array" = false \/
   exists bs, deref buffer_store (JRef 0) = Some (HBytes "Buffer" bs)) /\
  decode (JRef 0) buffer_store
    = (inl (TypeError "Can only decode() a Buffer or Uint8Array"), buffer_store).
Proof.
  assert (H : constructor_name_is buffer_store (JRef 0) "Uint8Array" = false \/
              exists bs, deref buffer_store (JRef 0) = Some (HBytes "Buffer" bs)).
  { right. exists header_bytes. reflexivity. }
  split; [exact H|].
  apply (decode_requires_direct_Uint8Array buffer_store (JRef 0) H).
Defined.



(** ** The merkle node count *)

Lemma expectedNodes_loop_done e last :
  (last <= 1)%nat -> expectedNodes_loop e last = e.
Proof.
  intros H. rewrite expectedNodes_loop_equation_1.
  destruct (le_lt_dec last 1); [reflexivity|lia].
Qed.

Lemma expectedNodes_loop_step e last :
  (1 < last)%nat ->
  expectedNodes_loop e last = expectedNodes_loop (e + ceil_half last) (ceil_half last).
Proof.
  intros H. rewrite expectedNodes_loop_equation_1.
  destruct (le_lt_dec last 1); [lia|reflexivity].
Qed.

Section MerkleFacts.

Variable doubleHash : list byte -> list byte.

Lemma upper_levels_done level :
  (length level <= 1)%nat -> upper_levels doubleHash level = [].
Proof.
  intros H. rewrite upper_levels_equation_1.
  destruct (le_lt_dec (length level) 1); [reflexivity|lia].
Qed.

Lemma upper_levels_step level :
  (1 < length level)%nat ->
  upper_levels doubleHash level
    = next_level doubleHash level :: upper_levels doubleHash (next_level doubleHash level).
Proof.
  intros H. rewrite upper_levels_equation_1.
  destruct (le_lt_dec (length level) 1); [lia|reflexivity].
Qed.

Lemma hashing_leaves_length z leaves :
  length (hashing_leaves z leaves) = length leaves.
Proof.
  unfold hashing_leaves. destruct z, leaves; cbn; rewrite ?length_map; reflexivity.
Qed.

(** The loop of the test counts exactly the nodes of the upper levels. *)
Lemma expectedNodes_loop_levels level e :
  expectedNodes_loop e (length level)
    = (e + length (concat (upper_levels doubleHash level)))%nat.
Proof.
  remember (length level) as n eqn:Hn. revert level e Hn.
  induction n as [n IH] using lt_wf_ind. intros level e ->.
  destruct (le_lt_dec (length level) 1) as [Hle|Hgt].
  - rewrite expectedNodes_loop_done, upper_levels_done by assumption. cbn. lia.
  - rewrite expectedNodes_loop_step, upper_levels_step by assumption.
    cbn [concat]. rewrite length_app.
    rewrite <- (next_level_length doubleHash level).
    rewrite (IH (length (next_level doubleHash level)))
      with (level := next_level doubleHash level);
      [lia | rewrite next_level_length; now apply ceil_half_lt | reflexivity].
Qed.

Lemma merkle_length zeroCoinbase leaves :
  length (merkle doubleHash zeroCoinbase leaves) = expectedNodes (length leaves).
Proof.
  unfold merkle, expectedNodes. rewrite length_app, length_map.
  rewrite <- (hashing_leaves_length zeroCoinbase leaves) at 3.
  now rewrite expectedNodes_loop_levels.
Qed.

(** C4. For more than one leaf, the builder emits as many nodes (leaves,
    internal nodes of every level, and the root) as the test's loop
    computes: [N] plus each successive level size [ceil(s / 2)] down to 1. *)
Theorem merkle_node_count zeroCoinbase leaves :
  (1 < length leaves)%nat ->
  length (merkle doubleHash zeroCoinbase leaves) = expectedNodes (length leaves).
Proof. intros _. apply merkle_length. Qed.

End MerkleFacts.

Lemma merkle_single_leaf doubleHash zeroCoinbase leaf :
  merkle doubleHash zeroCoinbase [leaf] = [leaf].
Proof.
  unfold merkle. rewrite upper_levels_done; [reflexivity|].
  rewrite hashing_leaves_length. cbn. lia.
Qed.

(** The assertion of line 300 holds when the no-witness run yields every node
    of the tree, and the witness run every node but the coinbase leaf. *)
Lemma verifyMerkle_count doubleHash leaves :
  leaves <> [] ->
  verifyMerkle_index false (length (merkle doubleHash false leaves))
    = expectedNodes (length leaves) /\
  verifyMerkle_index true (length (tail (merkle doubleHash true leaves)))
    = expectedNodes (length leaves).
Proof.
  intros Hne. unfold verifyMerkle_index. split.
  - cbn. apply merkle_length.
  - rewrite <- (merkle_length doubleHash true leaves).
    unfold merkle. destruct leaves as [|leaf rest]; [contradiction|].
    cbn [app tail length]. lia.
Qed.

Lemma merkle_node_count_witness :
  (1 < length sample_leaves)%nat /\
  length (merkle (fun bs => firstn 32 bs) true sample_leaves) = 6%nat /\
  expectedNodes (length sample_leaves) = 6%nat.
Proof.
  split; [cbn; lia|]. split; [|reflexivity].
  rewrite (merkle_node_count (fun bs => firstn 32 bs) true sample_leaves); [reflexivity|].
  cbn; lia.
Defined.

(** ** The transaction codec *)


Lemma compact_size_first n :
  0 < n -> exists b rest, compact_size n = b :: rest /\ b <> x00.
Proof.
  intros Hn. unfold compact_size.
  destruct (Z.ltb_spec n 0xfd) as [Hs|_].
  - exists (byte_of_Z n), []. split; [reflexivity|]. intros E.
    pose proof (Z_of_byte_of_Z n) as Hz. rewrite E in Hz.
    rewrite Z.mod_small in Hz by lia. cbn in Hz. lia.
  - destruct (n <=? 0xffff); [|destruct (n <=? 0xffffffff)];
      eexists _, _; (split; [reflexivity|discriminate]).
Qed.

(** For a segwit-tagged transaction the two encodings differ: after the
    version comes the zero marker byte in one, the non-zero input count in
    the other. *)
Lemma segwit_encodings_differ t :
  segwit_tagged t = true -> tx_encode t true <> tx_encode t false.
Proof.
  intros H. unfold tx_encode. rewrite H. cbn [andb].
  intros E. apply app_inv_head in E.
  assert (Hin : 0 < Z.of_nat (length (tx_inputs t))).
  { unfold segwit_tagged in H. destruct (tx_inputs t); [discriminate|cbn; lia]. }
  destruct (compact_size_first _ Hin) as (b & rest & Hc & Hb).
  rewrite Hc in E. cbn in E. inversion E. congruence.
Qed.

Lemma has_marker_flag_after_version v rest :
  has_marker_flag (le_bytes 4 v ++ rest) =
    match rest with
    | b4 :: b5 :: _ => bool_decide (b4 = x00) && bool_decide (b5 = x01)
    | _ => false
    end.
Proof.
  unfold has_marker_flag.
  now rewrite (skipn_app_exact 4 (le_bytes 4 v) rest (le_bytes_length 4 v)).
Qed.


(** The witness-stripped encoding never carries the marker/flag pair. *)
Lemma stripped_has_no_marker_flag t :
  tx_inputs t <> [] -> has_marker_flag (encodeNoWitness t) = false.
Proof.
  intros Hin. unfold encodeNoWitness, tx_encode. rewrite has_marker_flag_after_version.
  cbn [andb app].
  assert (Hpos : 0 < Z.of_nat (length (tx_inputs t)))
    by (destruct (tx_inputs t); [contradiction|cbn; lia]).
  destruct (compact_size_first _ Hpos) as (b & rest & -> & Hb).
  cbn [app]. destruct (rest ++ _) as [|b5 tl];
    [reflexivity | rewrite (bool_decide_eq_false_2 (b = x00) Hb); reflexivity].
Qed.



(** ** The witness commitment *)

Lemma script_test_hex script :
  (String.length (toHex script) =? 38 * 2)%nat && String.prefix "6a24aa21a9ed" (toHex script)
  = is_commitment_script script.
Proof.
  unfold is_commitment_script. rewrite toHex_length. f_equal.
  - destruct (Nat.eqb_spec (length script) 38) as [->|Hn]; [reflexivity|].
    apply Nat.eqb_neq. lia.
  - change "6a24aa21a9ed" with (toHex commitment_prefix).
    destruct (String.prefix (toHex commitment_prefix) (toHex script)) eqn:E.
    + apply prefix_toHex in E. symmetry. now apply bool_decide_eq_true.
    + symmetry. apply bool_decide_eq_false. intros Hp.
      apply (prefix_toHex commitment_prefix script) in Hp. congruence.
Qed.

Lemma scan_vouts_scripts scripts :
  scan_vouts (map vout_of_script scripts) = verify_commitment scripts.
Proof.
  unfold verify_commitment.
  induction scripts as [|s scripts IH]; [reflexivity|].
  cbn [map scan_vouts List.find vout_of_script Json.hex Json.scriptPubKey].
  rewrite script_test_hex. destruct (is_commitment_script s) eqn:Hs; [|exact IH].
  cbn [fmap option_fmap option_map]. f_equal.
  change 12%nat with (2 * 6)%nat. rewrite slice_from_toHex, fromHex_toHex.
  unfold embedded_commitment. unfold is_commitment_script in Hs.
  apply andb_prop in Hs as [Hlen _]. apply Nat.eqb_eq in Hlen.
  rewrite firstn_all2; [reflexivity|]. rewrite length_skipn. lia.
Qed.

(** C5. On a block with a coinbase, [findWitnessCommitment] scans the output
    scripts of the coinbase in order and returns bytes 6..37 of the first one
    that is exactly 38 bytes long and starts with 6a24aa21a9ed; a commitment
    is returned only from such a script, and [undefined] is returned exactly
    when no output script satisfies both conditions. *)
Theorem findWitnessCommitment_spec scripts others :
  let block := block_with_coinbase scripts others in
  findWitnessCommitment block = inr (verify_commitment scripts) /\
  (forall c,
     findWitnessCommitment block = inr (Some c) ->
     exists script,
       In script scripts /\ length script = 38%nat /\
       firstn 6 script = commitment_prefix /\
       c = firstn 32 (skipn 6 script) /\ length c = 32%nat) /\
  (findWitnessCommitment block = inr None <->
   forall script,
     In script scripts ->
     ~ (length script = 38%nat /\ firstn 6 script = commitment_prefix)).
Proof.
  intros block.
  assert (Hrun : findWitnessCommitment block = inr (verify_commitment scripts)).
  { unfold block, block_with_coinbase, findWitnessCommitment. cbn [Json.tx Json.vout].
    now rewrite scan_vouts_scripts. }
  assert (Htest : forall s, is_commitment_script s = true <->
                            length s = 38%nat /\ firstn 6 s = commitment_prefix).
  { intros s. unfold is_commitment_script.
    rewrite andb_true_iff, Nat.eqb_eq, bool_decide_eq_true. tauto. }
  split; [exact Hrun|]. rewrite Hrun. unfold verify_commitment. split.
  - intros c Hc. destruct (List.find is_commitment_script scripts) as [s|] eqn:Hf;
      [|discriminate].
    apply find_some in Hf as [Hin Hs]. apply Htest in Hs as [Hlen Hpre].
    cbn in Hc. inversion Hc; subst c. exists s. repeat split; try assumption.
    unfold embedded_commitment. rewrite length_firstn, length_skipn. lia.
  - split.
    + intros Hnone s Hin Hs. apply Htest in Hs.
      destruct (List.find is_commitment_script scripts) as [s'|] eqn:Hf; [discriminate|].
      pose proof (find_none _ _ Hf s Hin) as Hfalse. congruence.
    + intros Hall. destruct (List.find is_commitment_script scripts) as [s|] eqn:Hf;
        [|reflexivity].
      apply find_some in Hf as [Hin Hs]. apply Htest in Hs. now destruct (Hall s Hin).
Qed.

Example findWitnessCommitment_found :
  findWitnessCommitment
    (block_with_coinbase [[x76; xa9; x14]; commitment_script; commitment_prefix ++ repeat x11 32] [])
  = inr (Some (repeat x5a 32)).
Proof. reflexivity. Qed.

Example findWitnessCommitment_absent :
  findWitnessCommitment
    (block_with_coinbase [[x76; xa9; x14]; commitment_script ++ [x00]] [])
  = inr None.
Proof. reflexivity. Qed.

(** ** The header of a block description *)

Lemma delete_all_lookup keys f k :
  delete_all keys f !! k = if bool_decide (k ∈ keys) then None else f !! k.
Proof.
  unfold delete_all. revert f. induction keys as [|k' keys IH]; intros f; cbn [foldl].
  - rewrite bool_decide_eq_false_2; [reflexivity|]. apply not_elem_of_nil.
  - rewrite IH. destruct (decide (k = k')) as [->|Hne].
    + rewrite lookup_delete_eq.
      rewrite (bool_decide_eq_true_2 (k' ∈ k' :: keys)) by apply list_elem_of_here.
      now destruct (bool_decide (k' ∈ keys)).
    + rewrite lookup_delete_ne by congruence.
      destruct (bool_decide_reflect (k ∈ keys)) as [Hin|Hout].
      * rewrite (bool_decide_eq_true_2 (k ∈ k' :: keys)); [reflexivity|].
        now apply list_elem_of_further.
      * rewrite (bool_decide_eq_false_2 (k ∈ k' :: keys)); [reflexivity|].
        intros Hin. apply elem_of_cons in Hin as [?|?]; congruence.
Qed.

Lemma insert_app_length {A} (l1 l2 : list A) (x y : A) :
  <[length l1 := x]> (l1 ++ y :: l2) = l1 ++ x :: l2.
Proof.
  rewrite <- (Nat.add_0_r (length l1)). now rewrite insert_app_r.
Qed.

Lemma forEach_delete h f keys :
  forEach keys (fun p => delete_prop (JRef (length h)) p) (h ++ [HObj f])
  = (inr tt, h ++ [HObj (delete_all keys f)]).
Proof.
  revert f. induction keys as [|k keys IH]; intros f; [reflexivity|].
  cbn [forEach]. unfold bind at 1. unfold delete_prop at 1.
  rewrite lookup_app_length, insert_app_length. apply IH.
Qed.

Section TestHelperFacts.

Variable cid_props : ContentIdentifier -> gmap string jsval.

(** The outcome of [blockDataToHeader] on a plain object, in closed form:
    one new cell, the copy without the ten properties. *)
Lemma blockDataToHeader_record h l f :
  h !! l = Some (HObj f) ->
  blockDataToHeader cid_props (JRef l) h =
    (inr (JRef (length h)),
     h ++ [HObj (delete_all transaction_keys (delete_all chain_context_keys f))]).
Proof.
  intros Hl. unfold blockDataToHeader.
  unfold bind at 1. unfold alloc at 1.
  unfold bind at 1. unfold Object_assign. rewrite lookup_app_length. cbn [foldl].
  rewrite (own_enumerable_app cid_props h _ (JRef l) _ Hl).
  unfold own_enumerable. rewrite Hl, (right_id_L ∅ (∪)), insert_app_length.
  change (split " " "confirmations chainwork height mediantime nextblockhash")
    with chain_context_keys.
  change (split " " "tx nTx size strippedsize weight") with transaction_keys.
  unfold bind at 1. rewrite forEach_delete.
  unfold bind at 1. rewrite forEach_delete. reflexivity.
Qed.


(** X6. [blockDataToHeader] is idempotent: applied to its own result it
    returns a record with the same properties. *)
Theorem blockDataToHeader_idempotent h l f :
  h !! l = Some (HObj f) ->
  exists header h1,
    blockDataToHeader cid_props (JRef l) h = (inr header, h1) /\
    returned_record (blockDataToHeader cid_props header h1)
      = returned_record (inr header, h1).
Proof.
  intros Hl. rewrite (blockDataToHeader_record h l f Hl).
  set (g := delete_all transaction_keys (delete_all chain_context_keys f)).
  set (h1 := h ++ [HObj g]).
  assert (H1 : h1 !! length h = Some (HObj g)) by apply lookup_app_length.
  exists (JRef (length h)), h1. split; [reflexivity|].
  rewrite (blockDataToHeader_record h1 (length h) g H1).
  unfold returned_record. cbn [deref]. rewrite lookup_app_length, H1.
  f_equal. apply map_eq. intros k. unfold g. rewrite !delete_all_lookup.
  destruct (bool_decide (k ∈ transaction_keys)),
           (bool_decide (k ∈ chain_context_keys)); reflexivity.
Qed.


End TestHelperFacts.

(** ** More on the block-header codec *)

(** X2. [null] passes the guard of [encode] and is copied as a source without
    properties: it is encoded exactly as an empty record is. *)
Theorem encode_null_as_empty_record cid_props h l :
  h !! l = Some (HObj ∅) ->
  (encode cid_props JNull h).1 = (encode cid_props (JRef l) h).1.
Proof.
  intros Hl. rewrite (encode_ref cid_props h l _ Hl).
  rewrite (encode_object cid_props h JNull eq_refl).
  cbn [fst own_enumerable]. now rewrite Hl.
Qed.

(** X1. Re-encoding the record that [decode] returned, with its two links
    left in place, gives back the first 80 bytes of the input that was
    decoded. *)
Theorem encode_accepted_roundtrip cid_props h v r h' :
  decode v h = (inr r, h') ->
  exists bs,
    deref h v = Some (HBytes "Uint8Array" bs) /\
    (encode cid_props r h').1 = inr (firstn 80 bs).
Proof.
  intros Hdec.
  destruct (decode_accepts_inv h v r h' Hdec) as (l & bs & blk & -> & Hl & Hlen & _).
  exists bs. split; [exact Hl|].
  destruct (encode_decode_roundtrip cid_props h l bs Hl Hlen) as (ld & Hr & He).
  rewrite Hdec in Hr, He. cbn [fst snd] in Hr, He. inversion Hr; subst r. exact He.
Qed.

(** X3. [decode] returns a record only for a direct [Uint8Array] that holds
    at least the 80 bytes of a header. *)
Theorem decode_accepts_only h v r h' :
  decode v h = (inr r, h') ->
  exists bs, deref h v = Some (HBytes "Uint8Array" bs) /\ (80 <= length bs)%nat.
Proof.
  intros Hdec.
  destruct (decode_accepts_inv h v r h' Hdec) as (l & bs & blk & -> & Hl & Hlen & _).
  exists bs. split; assumption.
Qed.

(** X4. What [decode] returns is new: the record and the two identifiers it
    links to are cells that did not exist before the call, so the result
    shares nothing with the input. *)
Theorem decode_result_fresh h v r h' :
  decode v h = (inr r, h') ->
  exists ld g lp lt,
    r = JRef ld /\ h !! ld = None /\ h' !! ld = Some (HObj g) /\
    g !! "parent" = Some (JRef lp) /\ h !! lp = None /\
    g !! "tx" = Some (JRef lt) /\ h !! lt = None.
Proof.
  intros Hdec.
  destruct (decode_accepts_inv h v r h' Hdec) as (l & bs & blk & -> & Hl & _ & Hblk).
  rewrite (decode_Uint8Array h l bs blk Hl Hblk) in Hdec.
  inversion Hdec; subst r h'; clear Hdec.
  eexists _, _, _, _. split; [reflexivity|].
  split; [apply lookup_ge_None_2; lia|].
  split; [rewrite lookup_app_plus; reflexivity|].
  split; [rewrite lookup_insert_ne by discriminate; apply lookup_insert_eq|].
  split; [apply lookup_ge_None_2; lia|].
  split; [apply lookup_insert_eq|]. apply lookup_ge_None_2. lia.
Qed.

(** ** More on the merkle node count *)

Lemma ceil_half_double n : (n <= 2 * ceil_half n <= n + 1)%nat.
Proof.
  unfold ceil_half. pose proof (Nat.div_mod_eq (n + 1) 2) as E.
  pose proof (Nat.mod_upper_bound (n + 1) 2 ltac:(lia)). lia.
Qed.

Lemma expectedNodes_loop_acc e last :
  expectedNodes_loop e last = (e + expectedNodes_loop 0 last)%nat.
Proof.
  revert e. induction last as [last IH] using lt_wf_ind. intros e.
  destruct (le_lt_dec last 1) as [Hle|Hgt].
  - rewrite !expectedNodes_loop_done by assumption. lia.
  - rewrite (expectedNodes_loop_step e), (expectedNodes_loop_step 0) by assumption.
    rewrite (IH _ (ceil_half_lt _ Hgt) (e + ceil_half last)%nat).
    rewrite (IH _ (ceil_half_lt _ Hgt) (0 + ceil_half last)%nat). lia.
Qed.

(** X8. The count of the loop satisfies the recurrence of the tree: a block
    with at most one transaction has [N] nodes (the loop does not run), and
    otherwise [N] leaves plus the nodes of a tree over [ceil(N / 2)]. *)
Theorem expectedNodes_recurrence N :
  expectedNodes N =
    if (N <=? 1)%nat then N else (N + expectedNodes (ceil_half N))%nat.
Proof.
  unfold expectedNodes. destruct (Nat.leb_spec N 1) as [Hle|Hgt].
  - now apply expectedNodes_loop_done.
  - rewrite expectedNodes_loop_step by assumption.
    rewrite expectedNodes_loop_acc, (expectedNodes_loop_acc (ceil_half N)). lia.
Qed.

Lemma expectedNodes_lower N : (1 <= N)%nat -> (2 * N - 1 <= expectedNodes N)%nat.
Proof.
  induction N as [N IH] using lt_wf_ind. intros HN.
  rewrite expectedNodes_recurrence. destruct (Nat.leb_spec N 1) as [Hle|Hgt]; [lia|].
  pose proof (ceil_half_double N) as Hc.
  pose proof (IH _ (ceil_half_lt _ Hgt) ltac:(lia)). lia.
Qed.

Lemma log2_up_ceil_half N :
  (2 <= N)%nat -> (Nat.log2_up (ceil_half N) + 1 <= Nat.log2_up N)%nat.
Proof.
  intros HN. set (k := Nat.log2_up N).
  assert (Hpow : (N <= 2 ^ k)%nat) by (apply Nat.log2_up_le_pow2; [lia|reflexivity]).
  destruct k as [|k'] eqn:Ek; [cbn in Hpow; lia|].
  rewrite Nat.pow_succ_r' in Hpow.
  pose proof (ceil_half_double N) as Hc.
  assert (Hle : (ceil_half N <= 2 ^ k')%nat) by lia.
  apply Nat.log2_up_le_pow2 in Hle; lia.
Qed.

(** X9. A tree over [N >= 2] leaves has at least [2N - 1] nodes and at most
    [2N - 2 + ceil(log2 N)]: each level adds at most one duplicated node. *)
Theorem expectedNodes_bounds N :
  (2 <= N)%nat ->
  (2 * N - 1 <= expectedNodes N <= 2 * N - 2 + Nat.log2_up N)%nat.
Proof.
  intros HN. split; [apply expectedNodes_lower; lia|].
  induction N as [N IH] using lt_wf_ind.
  rewrite expectedNodes_recurrence. destruct (Nat.leb_spec N 1) as [Hle|Hgt]; [lia|].
  pose proof (ceil_half_double N) as Hc.
  pose proof (log2_up_ceil_half N HN) as Hlog.
  destruct (le_lt_dec (ceil_half N) 1) as [Hc1|Hc2].
  - rewrite (expectedNodes_recurrence (ceil_half N)).
    destruct (Nat.leb_spec (ceil_half N) 1); lia.
  - pose proof (IH _ (ceil_half_lt _ Hgt) ltac:(lia)). lia.
Qed.

(** X10. A tree over a power of two of leaves is full: [expectedNodes (2^k)]
    is [2^(k+1) - 1]. *)
Theorem expectedNodes_pow2 k : expectedNodes (2 ^ k) = (2 ^ (k + 1) - 1)%nat.
Proof.
  induction k as [|k IH]; [reflexivity|].
  rewrite expectedNodes_recurrence.
  assert (Hpos : (1 <= 2 ^ k)%nat) by (apply Nat.neq_0_lt_0, Nat.pow_nonzero; lia).
  assert (Hs : (2 ^ S k = 2 * 2 ^ k)%nat) by apply Nat.pow_succ_r'.
  destruct (Nat.leb_spec (2 ^ S k) 1) as [Hle|_]; [lia|].
  assert (Hc : ceil_half (2 ^ S k) = (2 ^ k)%nat).
  { pose proof (ceil_half_double (2 ^ S k)). lia. }
  rewrite Hc, IH. replace (S k + 1)%nat with (S (k + 1)) by lia.
  rewrite (Nat.pow_succ_r' 2 (k + 1)), Hs.
  replace (k + 1)%nat with (S k) by lia. rewrite Hs. lia.
Qed.

(** ** More on the witness commitment *)

Lemma fromHex_length_le s : (2 * length (fromHex s) <= String.length s)%nat.
Proof.
  induction s as [| c | c1 c2 s IH] using string_pair_ind; cbn [fromHex length String.length];
    try lia.
  destruct (hexval c1), (hexval c2); cbn [length]; lia.
Qed.

Lemma is_hex_length s :
  is_hex s = true -> String.length s = (2 * length (fromHex s))%nat.
Proof.
  induction s as [| c | c1 c2 s IH] using string_pair_ind; cbn [is_hex fromHex];
    try reflexivity; try discriminate.
  destruct (hexval c1), (hexval c2); try discriminate.
  intros H. cbn [length String.length]. rewrite (IH H). lia.
Qed.

Lemma slice_from_length n s :
  String.length (slice_from n s) = (String.length s - n)%nat.
Proof.
  revert s. induction n as [|n IH]; intros [|c s]; cbn [slice_from String.length];
    try lia. apply IH.
Qed.

Lemma is_hex_slice_from k s :
  is_hex s = true -> is_hex (slice_from (2 * k) s) = true.
Proof.
  revert s. induction k as [|k IH]; intros s Hs; [exact Hs|].
  replace (2 * S k)%nat with (S (S (2 * k))) by lia.
  destruct s as [|c1 [|c2 s]]; cbn [slice_from]; try discriminate;
    [destruct (2 * k)%nat; reflexivity|].
  cbn [is_hex] in Hs. destruct (hexval c1), (hexval c2); try discriminate.
  now apply IH.
Qed.

Lemma scan_vouts_found vouts c :
  scan_vouts vouts = Some c ->
  exists vout,
    In vout vouts /\
    String.length (Json.hex (Json.scriptPubKey vout)) = 76%nat /\
    String.prefix "6a24aa21a9ed" (Json.hex (Json.scriptPubKey vout)) = true /\
    c = fromHex (slice_from 12 (Json.hex (Json.scriptPubKey vout))).
Proof.
  induction vouts as [|vout rest IH]; [discriminate|].
  cbn [scan_vouts].
  destruct ((String.length (Json.hex (Json.scriptPubKey vout)) =? 38 * 2)%nat
            && String.prefix "6a24aa21a9ed" (Json.hex (Json.scriptPubKey vout))) eqn:E.
  - intros H. inversion H; subst c. apply andb_prop in E as [Hlen Hpre].
    apply Nat.eqb_eq in Hlen. exists vout. repeat split; auto. now left.
  - intros H. destruct (IH H) as (v & Hin & Hrest). exists v. split; [now right|exact Hrest].
Qed.

(** X11. Whatever the output scripts are, a commitment that
    [findWitnessCommitment] returns comes from an output of the coinbase
    whose script text has 76 characters and starts with 6a24aa21a9ed; it has
    at most 32 bytes, and exactly 32 when that text is hexadecimal
    throughout. *)
Theorem findWitnessCommitment_size block c :
  findWitnessCommitment block = inr (Some c) ->
  exists coinbase rest vout,
    Json.tx block = coinbase :: rest /\
    In vout (Json.vout coinbase) /\
    String.length (Json.hex (Json.scriptPubKey vout)) = 76%nat /\
    String.prefix "6a24aa21a9ed" (Json.hex (Json.scriptPubKey vout)) = true /\
    c = fromHex (slice_from 12 (Json.hex (Json.scriptPubKey vout))) /\
    (length c <= 32)%nat /\
    (is_hex (Json.hex (Json.scriptPubKey vout)) = true -> length c = 32%nat).
Proof.
  unfold findWitnessCommitment. destruct (Json.tx block) as [|coinbase rest]; [discriminate|].
  intros H. inversion H as [Hscan]; clear H.
  destruct (scan_vouts_found _ _ Hscan) as (vout & Hin & Hlen & Hpre & Hc).
  exists coinbase, rest, vout. repeat split; try assumption.
  - subst c. pose proof (fromHex_length_le (slice_from 12 (Json.hex (Json.scriptPubKey vout)))) as Hle.
    rewrite slice_from_length, Hlen in Hle. lia.
  - intros Hhex. subst c.
    pose proof (is_hex_length _ (is_hex_slice_from 6 _ Hhex)) as He.
    change (2 * 6)%nat with 12%nat in He. rewrite slice_from_length, Hlen in He. lia.
Qed.

(** A script text of the right length and prefix whose remainder is not
    hexadecimal yields a shorter commitment. *)
Example findWitnessCommitment_short :
  findWitnessCommitment
    {| Json.tx := [ {| Json.vout := [ {| Json.scriptPubKey :=
         {| Json.hex := "6a24aa21a9ed" ++ "0102zz" ++ toHex (repeat x00 29) |} |} ] |} ] |}
  = inr (Some [x01; x02]).
Proof. reflexivity. Qed.

(** ** The registered code and the injectivity of [decode] *)

(** X12. The parent link of a decoded header carries the code under which
    [init] registers this codec, so the parent can be fetched and decoded by
    the same codec. *)
Theorem decode_parent_codec_registered cid_props h v r h' :
  decode v h = (inr r, h') ->
  exists hv c,
    view (inr r, h') = inr (Some hv) /\
    view_parent hv = Some c /\
    codecTag c = codec_code (init cid_props).
Proof.
  intros Hdec.
  destruct (decode_accepts_inv h v r h' Hdec) as (l & bs & blk & -> & Hl & _ & Hblk).
  pose proof (view_decode h l bs blk Hl Hblk) as Hview. rewrite Hdec in Hview.
  eexists _, _. split; [exact Hview|]. split; reflexivity.
Qed.

Lemma porcelain_fields_inj b1 b2 :
  primitive_fields (porcelain_fields b1) = primitive_fields (porcelain_fields b2) ->
  b1 = b2.
Proof.
  rewrite !primitive_fields_porcelain. intros H. inversion H as [[Hv Hp Hm Ht Hb Hn]].
  apply (f_equal fromHex) in Hp, Hm. rewrite !fromHex_toHex in Hp, Hm.
  apply (f_equal (@rev byte)) in Hp, Hm. rewrite !rev_involutive in Hp, Hm.
  destruct b1, b2; cbn in *; congruence.
Qed.

(** X14. [decode] is injective on headers: two accepted inputs whose decoded
    records have the same six primitive fields have the same first 80
    bytes. *)
Theorem decode_injective h1 l1 bs1 h2 l2 bs2 r :
  h1 !! l1 = Some (HBytes "Uint8Array" bs1) ->
  h2 !! l2 = Some (HBytes "Uint8Array" bs2) ->
  header_fields_of (decode (JRef l1) h1) = Some r ->
  header_fields_of (decode (JRef l2) h2) = Some r ->
  firstn 80 bs1 = firstn 80 bs2.
Proof.
  intros H1 H2 V1 V2.
  assert (Hlen : forall h l bs,
            h !! l = Some (HBytes "Uint8Array" bs) ->
            header_fields_of (decode (JRef l) h) = Some r ->
            exists blk, decodeHeaderOnly bs = inr blk /\
                        primitive_fields (porcelain_fields blk) = Some r).
  { intros h l bs Hl Hv. unfold header_fields_of in Hv.
    destruct (le_lt_dec 80 (length bs)) as [Hge|Hlt].
    - destruct (decodeHeaderOnly_total bs Hge) as [blk Hblk]. exists blk.
      split; [exact Hblk|]. rewrite (view_decode h l bs blk Hl Hblk) in Hv. exact Hv.
    - rewrite (decode_truncated h l bs Hl Hlt) in Hv. discriminate. }
  destruct (Hlen _ _ _ H1 V1) as (b1 & D1 & F1).
  destruct (Hlen _ _ _ H2 V2) as (b2 & D2 & F2).
  rewrite <- (encode_decoded_block bs1 b1 D1), <- (encode_decoded_block bs2 b2 D2).
  f_equal. apply porcelain_fields_inj. congruence.
Qed.

(** ** The further properties on concrete inputs *)

Lemma encode_accepted_roundtrip_witness :
  decode (JRef 0) block_store
    = (inr (JRef 2), (decode (JRef 0) block_store).2) /\
  exists bs,
    deref block_store (JRef 0) = Some (HBytes "Uint8Array" bs) /\
    (encode no_cid_props (JRef 2) (decode (JRef 0) block_store).2).1 = inr (firstn 80 bs).
Proof.
  assert (H : decode (JRef 0) block_store
              = (inr (JRef 2), (decode (JRef 0) block_store).2))
    by (vm_compute; reflexivity).
  split; [exact H|].
  apply (encode_accepted_roundtrip no_cid_props block_store (JRef 0) (JRef 2) _ H).
Defined.

Lemma decode_accepts_only_witness :
  decode (JRef 0) block_store
    = (inr (JRef 2), (decode (JRef 0) block_store).2) /\
  exists bs,
    deref block_store (JRef 0) = Some (HBytes "Uint8Array" bs) /\ (80 <= length bs)%nat.
Proof.
  assert (H : decode (JRef 0) block_store
              = (inr (JRef 2), (decode (JRef 0) block_store).2))
    by (vm_compute; reflexivity).
  split; [exact H|].
  apply (decode_accepts_only block_store (JRef 0) (JRef 2) _ H).
Defined.

Lemma encode_null_as_empty_record_witness :
  empty_record_store !! 0%nat = Some (HObj ∅) /\
  (encode no_cid_props JNull empty_record_store).1
    = (encode no_cid_props (JRef 0) empty_record_store).1.
Proof.
  split; [reflexivity|].
  apply (encode_null_as_empty_record no_cid_props empty_record_store 0%nat). reflexivity.
Defined.

Lemma decode_result_fresh_witness :
  decode (JRef 0) header_store
    = (inr (JRef 2), (decode (JRef 0) header_store).2) /\
  exists ld g lp lt,
    JRef 2 = JRef ld /\ header_store !! ld = None /\
    (decode (JRef 0) header_store).2 !! ld = Some (HObj g) /\
    g !! "parent" = Some (JRef lp) /\ header_store !! lp = None /\
    g !! "tx" = Some (JRef lt) /\ header_store !! lt = None.
Proof.
  assert (H : decode (JRef 0) header_store
              = (inr (JRef 2), (decode (JRef 0) header_store).2))
    by (vm_compute; reflexivity).
  split; [exact H|].
  apply (decode_result_fresh header_store (JRef 0) (JRef 2) _ H).
Defined.


Lemma blockDataToHeader_idempotent_witness :
  block_data_store !! 0%nat = Some (HObj sample_block_data) /\
  exists header h1,
    blockDataToHeader no_cid_props (JRef 0) block_data_store = (inr header, h1) /\
    returned_record (blockDataToHeader no_cid_props header h1)
      = returned_record (inr header, h1).
Proof.
  split; [reflexivity|].
  apply (blockDataToHeader_idempotent no_cid_props block_data_store 0%nat sample_block_data).
  reflexivity.
Defined.


Lemma expectedNodes_bounds_witness :
  (2 <= 5)%nat /\ (2 * 5 - 1 <= expectedNodes 5 <= 2 * 5 - 2 + Nat.log2_up 5)%nat.
Proof.
  split; [lia|]. apply (expectedNodes_bounds 5). lia.
Defined.

Lemma findWitnessCommitment_size_witness :
  findWitnessCommitment commitment_block = inr (Some (repeat x5a 32)) /\
  exists coinbase rest vout,
    Json.tx commitment_block = coinbase :: rest /\
    In vout (Json.vout coinbase) /\
    String.length (Json.hex (Json.scriptPubKey vout)) = 76%nat /\
    String.prefix "6a24aa21a9ed" (Json.hex (Json.scriptPubKey vout)) = true /\
    repeat x5a 32 = fromHex (slice_from 12 (Json.hex (Json.scriptPubKey vout))) /\
    (length (repeat x5a 32) <= 32)%nat /\
    (is_hex (Json.hex (Json.scriptPubKey vout)) = true -> length (repeat x5a 32) = 32%nat).
Proof.
  split; [reflexivity|].
  apply (findWitnessCommitment_size commitment_block (repeat x5a 32)). reflexivity.
Defined.

Lemma decode_parent_codec_registered_witness :
  decode (JRef 0) header_store
    = (inr (JRef 2), (decode (JRef 0) header_store).2) /\
  exists hv c,
    view (inr (JRef 2), (decode (JRef 0) header_store).2) = inr (Some hv) /\
    view_parent hv = Some c /\
    codecTag c = codec_code (init no_cid_props).
Proof.
  assert (H : decode (JRef 0) header_store
              = (inr (JRef 2), (decode (JRef 0) header_store).2))
    by (vm_compute; reflexivity).
  split; [exact H|].
  apply (decode_parent_codec_registered no_cid_props header_store (JRef 0) (JRef 2) _ H).
Defined.

Lemma decode_injective_witness :
  block_store !! 0%nat = Some (HBytes "Uint8Array" (header_bytes ++ [x01; x02; x03])) /\
  header_store !! 0%nat = Some (HBytes "Uint8Array" header_bytes) /\
  header_fields_of (decode (JRef 0) block_store) = Some header_fields /\
  header_fields_of (decode (JRef 0) header_store) = Some header_fields /\
  firstn 80 (header_bytes ++ [x01; x02; x03]) = firstn 80 header_bytes.
Proof.
  split; [reflexivity|]. split; [reflexivity|].
  split; [vm_compute; reflexivity|]. split; [vm_compute; reflexivity|].
  apply (decode_injective block_store 0%nat (header_bytes ++ [x01; x02; x03])
           header_store 0%nat header_bytes header_fields);
    [reflexivity | reflexivity | vm_compute; reflexivity | vm_compute; reflexivity].
Defined.
